(** * cleanup-s3: the bucket-draining engine of [main.py]

    A shallow embedding of [batched], [filter_buckets], [empty_bucket],
    [delete_bucket], [worker] and the collection/summary part of [main],
    together with the properties the specification states about them.

    Conventions.
    - Python [int] is [Z]; [len] is [Z.of_nat (length _)].
    - A generator is the list of the values it yields, in order.
    - The S3 client is an oracle ([Provider]): the answer to a call is a
      function of the call's rank among the calls of the same kind and of the
      request.  Calls and sleeps are logged in a trace.
    - A Python exception is a value of [exn]; a computation that may raise
      returns a [result]. *)

From Stdlib Require Import ZArith String Ascii Bool Lia.
From Stdlib Require Import QArith Qminmax List.
From Stdlib Require DecimalString.
Import ListNotations.

Local Open Scope Z_scope.
Local Open Scope string_scope.
Local Open Scope list_scope.

(* ===================================================================== *)
(** ** Batcher: [batched] (main.py, lines 18-26) *)
(* ===================================================================== *)

Section Batcher.
Context {A : Type}.

(** The state of the generator's loop is the group under construction
      ([batch]); the result is the list of groups yielded from that state on.

      [[
      for item in iterable:
          batch.append(item)
          if len(batch) >= n:
              yield batch
              batch = []
      if batch:
          yield batch
      ]] *)
Fixpoint batched_from (n : Z) (batch iterable : list A) : list (list A) :=
  match iterable with
  | [] =>
      match batch with
      | [] => []
      | _ :: _ => [batch]
      end
  | item :: rest =>
      let batch' := batch ++ [item] in
      if Z.of_nat (length batch') >=? n
      then batch' :: batched_from n [] rest
      else batched_from n batch' rest
  end.

Definition batched (iterable : list A) (n : Z) : list (list A) :=
  batched_from n [] iterable.

End Batcher.


(* ===================================================================== *)
(** ** Exceptions and results *)
(* ===================================================================== *)

(** The exceptions the program raises or receives.  All are subclasses of
    Python's [Exception].
    - [ClientError code]: botocore's [ClientError]; [code] is
      [e.response.get("Error", {}).get("Code")], absent when [None].
    - [RuntimeError]: raised by [empty_bucket] when the retries of a batch
      are used up (main.py, line 74).
    - [OverflowError]: raised by [2 ** attempt * 0.25] when the integer
      [2 ** attempt] is too large for a float (from [attempt = 1024] on).
    - [ReError]: [re.error], raised by [re.compile] on an invalid pattern.
    - [ValueError]: raised by [ThreadPoolExecutor] for [max_workers <= 0].
    - [OtherError]: any other exception a client call raises that is not a
      [ClientError] (botocore's connection and timeout errors, for
      instance). *)
Inductive exn : Type :=
| ClientError (code : option string)
| RuntimeError (msg : string)
| OverflowError
| ReError
| ValueError
| OtherError (name : string).

Inductive result (A : Type) : Type :=
| Ret (a : A)
| Raise (e : exn).

Arguments Ret {A} a.
Arguments Raise {A} e.

(** [code in ("NoSuchBucket",)] *)
Definition is_no_such_bucket (code : option string) : bool :=
  match code with
  | Some c => c =? "NoSuchBucket"
  | None => false
  end.

(* ===================================================================== *)
(** ** The S3 client and the world a worker acts on *)
(* ===================================================================== *)

(** What one iteration of [for page in pages] receives: a page, whose
    [page.get("Contents", [])] is the list of its keys, or an exception
    raised while the page is fetched. *)
Inductive page_fetch : Type :=
| Page (contents : list string)
| PageError (e : exn).

(** The response of [delete_objects]: [resp.get("Deleted", [])] and the keys
    of [resp.get("Errors", [])]. *)
Record response : Type := {
  Deleted : list string;
  Errors : list string
}.

(** The S3 service as the program sees it.  The first argument of each field
    is the rank of the call among the calls of that kind made through the
    same client (0 for the first one).
    - [list_objects_v2 k bucket]: what the [k]-th paginator of the client
      yields, page by page; iteration ends with the list, or at the first
      [PageError].  Pages are fetched one per iteration of the loop; what
      they hold is the service's choice, so every run of the program is the
      run against some [Provider].
    - [delete_objects k bucket objects quiet]: the answer to the [k]-th
      [delete_objects] call.
    - [s3_delete_bucket k bucket]: the answer to the [k]-th [delete_bucket]
      call. *)
Record Provider : Type := {
  list_objects_v2 : nat -> string -> list page_fetch;
  delete_objects : nat -> string -> list string -> bool -> result response;
  s3_delete_bucket : nat -> string -> result unit
}.

(** What a run leaves behind: the calls made, in order, and the sleeps. *)
Inductive event : Type :=
| ListObjects (bucket : string)
| DeleteObjects (bucket : string) (objects : list string) (quiet : bool)
| DeleteBucket (bucket : string)
| Sleep (seconds : Q).

Record world : Type := {
  n_paginate : nat;
  n_delete_objects : nat;
  n_delete_bucket : nat;
  trace : list event
}.

Definition init_world : world :=
  {| n_paginate := 0; n_delete_objects := 0; n_delete_bucket := 0; trace := [] |}.

(** Computations that act on the world and may raise.  The world reached is
    kept when an exception is raised. *)
Definition M (A : Type) : Type := world -> result A * world.

Definition ret {A : Type} (a : A) : M A := fun w => (Ret a, w).

Definition raise {A : Type} (e : exn) : M A := fun w => (Raise e, w).

Definition bind {A B : Type} (m : M A) (k : A -> M B) : M B :=
  fun w =>
    match m w with
    | (Ret a, w') => k a w'
    | (Raise e, w') => (Raise e, w')
    end.

(** [try: m] with the outcome handed to the handler. *)
Definition catch {A : Type} (m : M A) : M (result A) :=
  fun w => let (r, w') := m w in (Ret r, w').

Declare Scope m_scope.
Delimit Scope m_scope with m.
Notation "x <- c ;; k" := (bind c (fun x => k))
  (at level 100, c at next level, right associativity) : m_scope.
Notation "c ;; k" := (bind c (fun _ => k))
  (at level 100, right associativity) : m_scope.
Local Open Scope m_scope.

Definition log (e : event) : M unit :=
  fun w =>
    (Ret tt,
     {| n_paginate := n_paginate w;
        n_delete_objects := n_delete_objects w;
        n_delete_bucket := n_delete_bucket w;
        trace := trace w ++ [e] |}).

(** [paginator.paginate(Bucket=bucket, ...)]: a new paginator. *)
Definition call_paginate (s3 : Provider) (bucket : string) : M (list page_fetch) :=
  fun w =>
    (Ret (list_objects_v2 s3 (n_paginate w) bucket),
     {| n_paginate := S (n_paginate w);
        n_delete_objects := n_delete_objects w;
        n_delete_bucket := n_delete_bucket w;
        trace := trace w |}).

(** [s3_client.delete_objects(Bucket=bucket,
                              Delete={"Objects": batch, "Quiet": True})] *)
Definition call_delete_objects (s3 : Provider) (bucket : string)
    (batch : list string) : M response :=
  fun w =>
    (delete_objects s3 (n_delete_objects w) bucket batch true,
     {| n_paginate := n_paginate w;
        n_delete_objects := S (n_delete_objects w);
        n_delete_bucket := n_delete_bucket w;
        trace := trace w ++ [DeleteObjects bucket batch true] |}).

(** [s3_client.delete_bucket(Bucket=bucket)] *)
Definition call_delete_bucket (s3 : Provider) (bucket : string) : M unit :=
  fun w =>
    (s3_delete_bucket s3 (n_delete_bucket w) bucket,
     {| n_paginate := n_paginate w;
        n_delete_objects := n_delete_objects w;
        n_delete_bucket := S (n_delete_bucket w);
        trace := trace w ++ [DeleteBucket bucket] |}).

(** [range(n)] *)
Definition range (n : Z) : list nat := seq 0 (Z.to_nat n).

(** [min(2 ** attempt * base, cap)] in seconds.  The floats involved are
    dyadic and exact as long as [2 ** attempt] converts to a float, that is
    for [attempt < 1024]; from 1024 on the conversion raises
    [OverflowError]. *)
Definition delay (attempt : nat) (base cap : Q) : Q :=
  Qred (Qmin (inject_Z (2 ^ Z.of_nat attempt) * base) cap).

Definition backoff (attempt : nat) (base cap : Q) : result Q :=
  if (attempt <? 1024)%nat then Ret (delay attempt base cap)
  else Raise OverflowError.

(** [time.sleep(min(2 ** attempt * base, cap))] *)
Definition sleep_backoff (attempt : nat) (base cap : Q) : M unit :=
  match backoff attempt base cap with
  | Ret seconds => log (Sleep seconds)
  | Raise e => raise e
  end.

(* ===================================================================== *)
(** ** Name Filter: [filter_buckets] (main.py, lines 32-39) *)
(* ===================================================================== *)

(** Python's [re] module, as far as [filter_buckets] uses it:
    [re.compile], which raises [re.error] on an invalid pattern ([None]
    here), and [rx.search].  A pattern on which [re.compile] raises
    something else ([OverflowError] for an oversized repeat count,
    [RecursionError]) is outside the model. *)
Class Regex : Type := {
  compiled : Type;
  re_compile : string -> option compiled;
  re_search : compiled -> string -> bool
}.

(** The truth value of an [Optional[str]]: [None] and [""] are false. *)
Definition truthy (o : option string) : option string :=
  match o with
  | Some s => if s =? "" then None else Some s
  | None => None
  end.

Definition filter_buckets `{E : Regex} (names : list string)
    (include_prefix exclude_regex : option string) : result (list string) :=
  let out := names in
  let out :=
    match truthy include_prefix with
    | Some p => filter (fun n => String.prefix p n) out
    | None => out
    end in
  match truthy exclude_regex with
  | Some r =>
      match re_compile r with
      | Some rx => Ret (filter (fun n => negb (re_search rx n)) out)
      | None => Raise ReError
      end
  | None => Ret out
  end.

(* ===================================================================== *)
(** ** Bucket Drainer: [empty_bucket] (main.py, lines 41-76) *)
(* ===================================================================== *)

Inductive status : Type := emptied | gone | deleted | failed.

(** The dictionary [empty_bucket] returns, with the ["final"] entry the
    worker adds. *)
Record summary : Type := {
  s_bucket : string;
  s_deleted : Z;
  s_status : status;
  s_final : option status
}.

(** How the processing of a batch, or of a run of batches or pages, ends
    when it does not raise: the loop goes on ([Continue], with the running
    [total_deleted]), or the function returns the ["gone"] dictionary
    ([ReturnGone]). *)
Inductive flow : Type :=
| Continue (total_deleted : Z)
| ReturnGone (total_deleted : Z).

Definition len {A : Type} (l : list A) : Z := Z.of_nat (length l).

Definition retries_message (bucket : string) : string :=
  ("Failed to delete some objects in " ++ bucket ++ " after retries.")%string.

(** [for attempt in range(max_delete_retries): ... else: raise ...]
    (lines 53-74), over the attempts still to make. *)
Fixpoint delete_attempts (s3 : Provider) (bucket : string)
    (attempts : list nat) (batch : list string) (total_deleted : Z) : M flow :=
  match attempts with
  | [] => raise (RuntimeError (retries_message bucket))
  | attempt :: later =>
      r <- catch (call_delete_objects s3 bucket batch) ;;
      match r with
      | Ret resp =>
          let total_deleted := total_deleted + len (Deleted resp) in
          match Errors resp with
          | [] => ret (Continue total_deleted)
          | _ :: _ =>
              sleep_backoff attempt (1 # 4) 4 ;;
              delete_attempts s3 bucket later (Errors resp) total_deleted
          end
      | Raise (ClientError code) =>
          if is_no_such_bucket code then ret (ReturnGone total_deleted)
          else
            sleep_backoff attempt (1 # 2) 4 ;;
            delete_attempts s3 bucket later batch total_deleted
      | Raise e => raise e
      end
  end.

(** [for batch in batched(keys, batch_size): ...] (line 52) *)
Fixpoint delete_batches (s3 : Provider) (bucket : string)
    (max_delete_retries : Z) (batches : list (list string))
    (total_deleted : Z) : M flow :=
  match batches with
  | [] => ret (Continue total_deleted)
  | batch :: later =>
      f <- delete_attempts s3 bucket (range max_delete_retries) batch
             total_deleted ;;
      match f with
      | Continue total_deleted =>
          delete_batches s3 bucket max_delete_retries later total_deleted
      | ReturnGone total_deleted => ret (ReturnGone total_deleted)
      end
  end.

(** [for page in pages: ...] (lines 46-74) *)
Fixpoint drain_pages (s3 : Provider) (bucket : string)
    (batch_size max_delete_retries : Z) (pages : list page_fetch)
    (total_deleted : Z) : M flow :=
  match pages with
  | [] => ret (Continue total_deleted)
  | fetch :: later =>
      log (ListObjects bucket) ;;
      match fetch with
      | PageError e => raise e
      | Page [] =>
          drain_pages s3 bucket batch_size max_delete_retries later
            total_deleted
      | Page keys =>
          f <- delete_batches s3 bucket max_delete_retries
                 (batched keys batch_size) total_deleted ;;
          match f with
          | Continue total_deleted =>
              drain_pages s3 bucket batch_size max_delete_retries later
                total_deleted
          | ReturnGone total_deleted => ret (ReturnGone total_deleted)
          end
      end
  end.

Definition empty_bucket (s3 : Provider) (bucket : string)
    (batch_size max_delete_retries : Z) : M summary :=
  pages <- call_paginate s3 bucket ;;
  f <- drain_pages s3 bucket batch_size max_delete_retries pages 0 ;;
  match f with
  | ReturnGone total_deleted =>
      ret {| s_bucket := bucket; s_deleted := total_deleted;
             s_status := gone; s_final := None |}
  | Continue total_deleted =>
      ret {| s_bucket := bucket; s_deleted := total_deleted;
             s_status := emptied; s_final := None |}
  end.

(* ===================================================================== *)
(** ** Bucket Remover: [delete_bucket] (main.py, lines 78-93) *)
(* ===================================================================== *)

(** [for i in range(retries): ...] (lines 79-87): [Some] status when the
    loop returns, [None] when it runs to its end. *)
Fixpoint delete_bucket_attempts (s3 : Provider) (bucket : string)
    (attempts : list nat) : M (option status) :=
  match attempts with
  | [] => ret None
  | i :: later =>
      r <- catch (call_delete_bucket s3 bucket) ;;
      match r with
      | Ret _ => ret (Some deleted)
      | Raise (ClientError code) =>
          if is_no_such_bucket code then ret (Some gone)
          else
            sleep_backoff i (1 # 2) 5 ;;
            delete_bucket_attempts s3 bucket later
      | Raise e => raise e
      end
  end.

(** The body of the final [try] (lines 89-90), with [empty_bucket]'s
    defaults [batch_size = 1000] and [max_delete_retries = 5]. *)
Definition fallback_pass (s3 : Provider) (bucket : string) : M unit :=
  empty_bucket s3 bucket 1000 5 ;;
  call_delete_bucket s3 bucket.

Definition delete_bucket (s3 : Provider) (bucket : string) (retries : Z)
    : M status :=
  r <- delete_bucket_attempts s3 bucket (range retries) ;;
  match r with
  | Some s => ret s
  | None =>
      r <- catch (fallback_pass s3 bucket) ;;
      match r with
      | Ret _ => ret deleted
      | Raise _ => ret failed
      end
  end.

(* ===================================================================== *)
(** ** Run Scheduler: [worker] and [main] (main.py, lines 95-171) *)
(* ===================================================================== *)

Definition set_final (s : summary) (final : status) : summary :=
  {| s_bucket := s_bucket s; s_deleted := s_deleted s;
     s_status := s_status s; s_final := Some final |}.

(** [worker]: [empty_bucket] with the default [max_delete_retries = 5],
    then [delete_bucket] with the default [retries = 5]. *)
Definition worker (s3 : Provider) (bucket : string) (batch_size : Z)
    (do_delete_bucket : bool) : M summary :=
  summary <- empty_bucket s3 bucket batch_size 5 ;;
  if do_delete_bucket then
    final <- delete_bucket s3 bucket 5 ;;
    ret (set_final summary final)
  else ret (set_final summary emptied).

(** [fut.result()]: every worker makes a client of its own. *)
Definition future_result (s3 : Provider) (bucket : string) (batch_size : Z)
    (do_delete_bucket : bool) : result summary :=
  fst (worker s3 bucket batch_size do_delete_bucket init_world).

(** [r.get("final") in ("deleted", "gone")] *)
Definition final_ok (r : summary) : bool :=
  match s_final r with
  | Some deleted | Some gone => true
  | _ => false
  end.

(** What a run shows: the exit code, [results], the buckets whose error
    was echoed on standard error, and the summary block: the two numbers of
    the [success:] line and the lines printed under [failed buckets:]. *)
Record report : Type := {
  exit_code : Z;
  results : list summary;
  error_lines : list (string * exn);
  success_line : Z * Z;
  failed_lines : list (string * option status)
}.

(** [for fut in as_completed(futs): ...] (lines 152-159), over the buckets
    in the order their tasks complete.  The outcome of a task is the outcome
    of its worker against the service, a function of the bucket: exact
    when no bucket is a target twice. *)
Fixpoint collect (s3 : Provider) (batch_size : Z) (do_delete_bucket : bool)
    (completed : list string) : list summary * list (string * exn) :=
  match completed with
  | [] => ([], [])
  | b :: later =>
      let (res, errs) := collect s3 batch_size do_delete_bucket later in
      match future_result s3 b batch_size do_delete_bucket with
      | Ret r => (r :: res, errs)
      | Raise e => (res, (b, e) :: errs)
      end
  end.

(** [main] from line 138 on.  [completion] is the order in which
    [as_completed] hands the futures over, a permutation of [targets]. *)
Definition run (s3 : Provider) (targets completion : list string)
    (max_workers batch_size : Z) (dry_run do_delete_bucket : bool)
    : result report :=
  match targets with
  | [] =>
      Ret {| exit_code := 1; results := []; error_lines := [];
             success_line := (0, 0); failed_lines := [] |}
  | _ :: _ =>
      if dry_run then
        Ret {| exit_code := 0; results := []; error_lines := [];
               success_line := (0, 0); failed_lines := [] |}
      else if (max_workers <=? 0)%Z then Raise ValueError
      else
        let (res, errs) := collect s3 batch_size do_delete_bucket completion in
        let ok := filter final_ok res in
        let ng := filter (fun r => negb (final_ok r)) res in
        Ret {| exit_code := match ng with [] => 0 | _ :: _ => 2 end;
               results := res;
               error_lines := errs;
               success_line := (len ok, len targets);
               failed_lines := map (fun r => (s_bucket r, s_final r)) ng |}
  end.

Definition main `{E : Regex} (s3 : Provider) (candidates : list string)
    (include_prefix exclude_regex : option string)
    (completion : list string -> list string)
    (max_workers batch_size : Z) (dry_run do_delete_bucket : bool)
    : result report :=
  match filter_buckets candidates include_prefix exclude_regex with
  | Raise e => Raise e
  | Ret targets =>
      run s3 targets (completion targets) max_workers batch_size dry_run
        do_delete_bucket
  end.

(* ===================================================================== *)
(** ** The specification's reading of the Name Filter *)
(* ===================================================================== *)

(** The filter as the specification words it: a filter is applied when it is
    given, that is, present. *)
Definition filter_spec `{E : Regex} (names : list string)
    (include_prefix exclude_regex : option string) : result (list string) :=
  let kept :=
    match include_prefix with
    | Some p => filter (fun n => String.prefix p n) names
    | None => names
    end in
  match exclude_regex with
  | Some r =>
      match re_compile r with
      | Some rx => Ret (filter (fun n => negb (re_search rx n)) kept)
      | None => Raise ReError
      end
  | None => Ret kept
  end.

(** [n.startswith(include_prefix)], true when no prefix is given. *)
Definition starts_with (include_prefix : option string) (n : string) : bool :=
  match include_prefix with
  | Some p => String.prefix p n
  | None => true
  end.

(** [rx.search(n)] for a regex that is given and not empty. *)
Definition excluded `{E : Regex} (exclude_regex : option string) (n : string) : bool :=
  match truthy exclude_regex with
  | Some r =>
      match re_compile r with
      | Some rx => re_search rx n
      | None => false
      end
  | None => false
  end.

(** [subseq l1 l2]: [l1] is [l2] with some items left out, order kept. *)
Inductive subseq {A : Type} : list A -> list A -> Prop :=
| subseq_nil : subseq [] []
| subseq_keep x l1 l2 : subseq l1 l2 -> subseq (x :: l1) (x :: l2)
| subseq_drop x l1 l2 : subseq l1 l2 -> subseq l1 (x :: l2).

(* ===================================================================== *)
(** ** A small regex engine *)
(* ===================================================================== *)

(** An instance of [Regex] for a fragment of Python's pattern syntax:
    literal characters, [.], a postfix [*] on one character, a leading [^]
    and [$].  It gives the examples an engine to run on.  A pattern outside
    the fragment is not compiled. *)
Module MiniRe.

Inductive atom : Type :=
| Lit (c : ascii)
| AnyChar.

Inductive item : Type :=
| One (a : atom)
| Star (a : atom)
| Eol.

Record pattern : Type := {
  anchored : bool;
  items : list item
}.

Definition newline : ascii := ascii_of_nat 10.

Definition reserved (c : ascii) : bool :=
  existsb (Ascii.eqb c)
    (list_ascii_of_string "*^\[](){}+?|").

Definition atom_of (c : ascii) : atom :=
  if Ascii.eqb c "." then AnyChar else Lit c.

Fixpoint parse_items (s : string) : option (list item) :=
  match s with
  | EmptyString => Some []
  | String c rest =>
      if Ascii.eqb c "$" then option_map (cons Eol) (parse_items rest)
      else if reserved c then None
      else
        match rest with
        | String "*"%char rest' =>
            option_map (cons (Star (atom_of c))) (parse_items rest')
        | _ => option_map (cons (One (atom_of c))) (parse_items rest)
        end
  end.

Definition compile (s : string) : option pattern :=
  match s with
  | String "^"%char rest =>
      option_map (fun l => {| anchored := true; items := l |}) (parse_items rest)
  | _ =>
      option_map (fun l => {| anchored := false; items := l |}) (parse_items s)
  end.

Definition accepts (a : atom) (c : ascii) : bool :=
  match a with
  | Lit d => Ascii.eqb d c
  | AnyChar => negb (Ascii.eqb c newline)
  end.

(** [$] holds at the end of the text and before a final newline. *)
Definition at_end (text : string) : bool :=
  match text with
  | EmptyString => true
  | String c EmptyString => Ascii.eqb c newline
  | _ => false
  end.

Fixpoint match_here (re : list item) (text : string) : bool :=
  match re with
  | [] => true
  | One a :: re' =>
      match text with
      | String c t => accepts a c && match_here re' t
      | EmptyString => false
      end
  | Eol :: re' => at_end text && match_here re' text
  | Star a :: re' =>
      (fix star (t : string) : bool :=
         match_here re' t
         || match t with
            | String c t' => accepts a c && star t'
            | EmptyString => false
            end) text
  end.

Fixpoint match_from (re : list item) (text : string) : bool :=
  match_here re text
  || match text with
     | String _ t => match_from re t
     | EmptyString => false
     end.

Definition search (p : pattern) (text : string) : bool :=
  if anchored p then match_here (items p) text
  else match_from (items p) text.

Definition engine : Regex :=
  {| compiled := pattern; re_compile := compile; re_search := search |}.

End MiniRe.

(* ===================================================================== *)
(** ** Scenarios *)
(* ===================================================================== *)

Definition ok_response (quiet : bool) (objects : list string) : response :=
  {| Deleted := if quiet then [] else objects; Errors := [] |}.

(** A service that deletes whatever it is asked to, and honours quiet mode:
    a quiet response lists no deleted key.  Every bucket holds the two
    objects ["a.txt"] and ["b.txt"]. *)
Definition healthy_s3 : Provider :=
  {| list_objects_v2 := fun _ _ => [Page ["a.txt"; "b.txt"]];
     delete_objects := fun _ _ objects quiet => Ret (ok_response quiet objects);
     s3_delete_bucket := fun _ _ => Ret tt |}.

(** As [healthy_s3], but every [delete_objects] call on bucket ["b3"] is
    throttled. *)
Definition b3_throttled_s3 : Provider :=
  {| list_objects_v2 := fun _ _ => [Page ["a.txt"; "b.txt"]];
     delete_objects := fun _ bucket objects quiet =>
       if bucket =? "b3" then Raise (ClientError (Some "SlowDown"))
       else Ret (ok_response quiet objects);
     s3_delete_bucket := fun _ _ => Ret tt |}.

Definition key_of (i : nat) : string :=
  ("k" ++ DecimalString.NilEmpty.string_of_uint (Nat.to_uint i))%string.

Definition thousand_keys : list string := map key_of (seq 0 1000).

Definition without (skip objects : list string) : list string :=
  filter (fun k => negb (existsb (String.eqb k) skip)) objects.

(** One page of the keys [k0 .. k999].  The first [delete_objects] call
    reports the keys [k3] and [k77] as errors, later calls succeed.  With
    [honours_quiet] the service leaves the deleted keys out of a quiet
    response, as S3 does; without it the response lists them. *)
Definition partial_failure_s3 (honours_quiet : bool) : Provider :=
  {| list_objects_v2 := fun _ _ => [Page thousand_keys];
     delete_objects := fun k _ objects quiet =>
       let listed := if honours_quiet && quiet then [] else objects in
       match k with
       | O => Ret {| Deleted := without ["k3"; "k77"] listed;
                     Errors := ["k3"; "k77"] |}
       | S _ => Ret {| Deleted := listed; Errors := [] |}
       end;
     s3_delete_bucket := fun _ _ => Ret tt |}.

(** The bucket is gone when its first page is listed. *)
Definition vanished_s3 : Provider :=
  {| list_objects_v2 := fun _ _ => [PageError (ClientError (Some "NoSuchBucket"))];
     delete_objects := fun _ _ objects quiet => Ret (ok_response quiet objects);
     s3_delete_bucket := fun _ _ => Raise (ClientError (Some "NoSuchBucket")) |}.

(** Three keys in one page; the first [delete_objects] call succeeds, every
    later one is throttled. *)
Definition throttled_s3 : Provider :=
  {| list_objects_v2 := fun _ _ => [Page ["k1"; "k2"; "k3"]];
     delete_objects := fun k _ objects quiet =>
       match k with
       | O => Ret (ok_response quiet objects)
       | S _ => Raise (ClientError (Some "SlowDown"))
       end;
     s3_delete_bucket := fun _ _ => Ret tt |}.

(** The endpoint cannot be reached when the bucket is to be deleted:
    botocore raises a connection error, which is not a [ClientError]. *)
Definition unreachable_s3 : Provider :=
  {| list_objects_v2 := fun _ _ => [];
     delete_objects := fun _ _ objects quiet => Ret (ok_response quiet objects);
     s3_delete_bucket := fun _ _ => Raise (OtherError "EndpointConnectionError") |}.

(** An empty bucket whose deletion is refused [refusals] times with
    [BucketNotEmpty] and then answered by [answer]. *)
Definition refusing_s3 (refusals : nat) (answer : result unit) : Provider :=
  {| list_objects_v2 := fun _ _ => [];
     delete_objects := fun _ _ objects quiet => Ret (ok_response quiet objects);
     s3_delete_bucket := fun k _ =>
       if (k <? refusals)%nat then Raise (ClientError (Some "BucketNotEmpty"))
       else answer |}.

(* ===================================================================== *)
(** ** Vocabulary of the properties *)
(* ===================================================================== *)

(** Every one of the [attempts] on [batch] completes without the batch
    fully succeeding, the first of them being the [k]-th [delete_objects]
    call: the response reports per-key errors (the next attempt is made on
    the failed keys only), or the call fails with a client error other than
    not-found (the next attempt is made on the same batch). *)
Fixpoint all_attempts_fail (s3 : Provider) (bucket : string)
    (attempts : list nat) (k : nat) (batch : list string) : bool :=
  match attempts with
  | [] => true
  | _ :: later =>
      match delete_objects s3 k bucket batch true with
      | Ret resp =>
          match Errors resp with
          | [] => false
          | _ :: _ => all_attempts_fail s3 bucket later (S k) (Errors resp)
          end
      | Raise (ClientError code) =>
          negb (is_no_such_bucket code)
          && all_attempts_fail s3 bucket later (S k) batch
      | Raise _ => false
      end
  end.

(** The service honours quiet mode: a successful quiet response lists no
    deleted key. *)
Definition honours_quiet (s3 : Provider) : Prop :=
  forall k bucket objects resp,
    delete_objects s3 k bucket objects true = Ret resp -> Deleted resp = [].

(** A [delete_bucket] answer that makes the retry loop go on: a client
    error other than not-found. *)
Definition transient (a : result unit) : bool :=
  match a with
  | Raise (ClientError code) => negb (is_no_such_bucket code)
  | _ => false
  end.

(** A [delete_bucket] answer that is a success or a client error. *)
Definition client_answer (a : result unit) : bool :=
  match a with
  | Ret _ => true
  | Raise (ClientError _) => true
  | Raise _ => false
  end.

(** The world after [calls] more [delete_bucket] calls that left the
    [events] behind. *)
Definition after_bucket_calls (w : world) (calls : nat) (events : list event)
    : world :=
  {| n_paginate := n_paginate w;
     n_delete_objects := n_delete_objects w;
     n_delete_bucket := n_delete_bucket w + calls;
     trace := trace w ++ events |}.

(** The trace of the failed attempts [first], ..., [first + n - 1] of the
    retry loop of [delete_bucket]: attempt [i] is followed by a sleep of
    [min(2^i * 0.5, 5.0)] seconds. *)
Definition retry_trace (bucket : string) (first n : nat) : list event :=
  flat_map (fun i => [DeleteBucket bucket; Sleep (delay i (1 # 2) 5)])
    (seq first n).

(** The [delete_objects] calls of a trace, in order. *)
Definition delete_calls (t : list event) : list (list string) :=
  flat_map (fun e =>
    match e with
    | DeleteObjects _ objects _ => [objects]
    | _ => []
    end) t.

(** The answer to the [k]-th [delete_bucket] call made from world [w] on. *)
Definition answer_at (s3 : Provider) (bucket : string) (w : world) (k : nat)
    : result unit :=
  s3_delete_bucket s3 (n_delete_bucket w + k) bucket.

(* ===================================================================== *)
(** * Properties *)
(* ===================================================================== *)

(** ** Batcher *)

(** Integer ceiling of [a / b] for a positive [b]. *)
Definition ceil_div (a b : Z) : Z := (a + b - 1) / b.

Lemma ceil_div_bounds (a b : Z) :
  0 < b -> b * (ceil_div a b - 1) < a <= b * ceil_div a b.
Proof.
  intros Hb. unfold ceil_div.
  pose proof (Z.div_mod (a + b - 1) b ltac:(lia)) as Hdm.
  pose proof (Z.mod_pos_bound (a + b - 1) b Hb) as Hm.
  nia.
Qed.

Lemma ceil_div_unique (a b q : Z) :
  0 < b -> b * (q - 1) < a <= b * q -> ceil_div a b = q.
Proof.
  intros Hb Hq. pose proof (ceil_div_bounds a b Hb). nia.
Qed.

Section BatcherFacts.
Context {A : Type}.
Implicit Types (batch items : list A) (n : Z).

Lemma batched_from_concat n items : forall batch,
  concat (batched_from n batch items) = batch ++ items.
Proof.
  induction items as [|x rest IH]; intros batch; simpl.
  - destruct batch; simpl; now rewrite ?app_nil_r.
  - destruct (_ >=? n); simpl; rewrite IH; simpl; now rewrite <- app_assoc.
Qed.

Lemma batched_from_group_size n items : forall batch,
  0 < n -> Z.of_nat (length batch) < n ->
  Forall (fun g => 0 < Z.of_nat (length g) <= n) (batched_from n batch items).
Proof.
  induction items as [|x rest IH]; intros batch Hn Hb; simpl.
  - destruct batch as [|b bs]; constructor; [|constructor].
    simpl length in *. lia.
  - destruct (Z.geb_spec (Z.of_nat (length (batch ++ [x]))) n) as [Hge|Hlt];
      rewrite length_app in *; simpl length in *.
    + constructor; [rewrite length_app; simpl length; lia|].
      apply IH; simpl; lia.
    + apply IH; [lia|]. rewrite length_app; simpl length; lia.
Qed.

Lemma batched_from_count n items : forall batch,
  0 < n -> Z.of_nat (length batch) < n ->
  Z.of_nat (length (batched_from n batch items))
  = ceil_div (Z.of_nat (length batch) + Z.of_nat (length items)) n.
Proof.
  induction items as [|x rest IH]; intros batch Hn Hb; simpl batched_from.
  - symmetry. apply ceil_div_unique; trivial.
    destruct batch as [|b bs]; simpl length in *; lia.
  - destruct (Z.geb_spec (Z.of_nat (length (batch ++ [x]))) n) as [Hge|Hlt];
      rewrite length_app in *; simpl length in *.
    + cbn [length]. rewrite Nat2Z.inj_succ, IH by (simpl; lia).
      cbn [length].
      pose proof (ceil_div_bounds (Z.of_nat 0 + Z.of_nat (length rest)) n Hn).
      symmetry. apply ceil_div_unique; trivial. lia.
    + rewrite IH by (rewrite ?length_app; simpl length; lia).
      rewrite length_app. simpl length. f_equal. lia.
Qed.

Lemma batched_from_full n items : forall batch gs g,
  0 < n -> Z.of_nat (length batch) < n ->
  batched_from n batch items = gs ++ [g] ->
  Forall (fun x => Z.of_nat (length x) = n) gs.
Proof.
  induction items as [|x rest IH]; intros batch gs g Hn Hb; simpl batched_from.
  - destruct batch as [|b bs]; intros E.
    + now destruct gs.
    + destruct gs as [|g0 gs]; [constructor|].
      simpl in E. injection E as _ E. now destruct gs.
  - destruct (Z.geb_spec (Z.of_nat (length (batch ++ [x]))) n) as [Hge|Hlt];
      intros E.
    + destruct gs as [|g0 gs]; [constructor|].
      simpl in E. injection E as E1 E2. subst g0. constructor.
      * rewrite length_app in *. simpl length in *. lia.
      * apply (IH [] gs g); simpl; auto; lia.
    + apply (IH (batch ++ [x]) gs g); auto.
Qed.

Lemma batched_from_nonpositive n items :
  n <= 0 -> batched_from n [] items = map (fun x => [x]) items.
Proof.
  intros Hn. induction items as [|x rest IH]; simpl; [reflexivity|].
  destruct (Z.geb_spec 1 n); [now rewrite IH | lia].
Qed.

End BatcherFacts.

(** C7. For a batch size [n > 0] and an input of length [L], [batched] yields
    [ceil (L / n)] groups (the least [q] with [L <= n * q]); their
    concatenation in order is the input; every group has at most [n] items
    (and at least one); every group but the last has exactly [n] items; the
    empty input yields no group. *)
Theorem batched_positive_spec {A : Type} (iterable : list A) (n : Z) :
  0 < n ->
  Z.of_nat (length (batched iterable n))
    = ceil_div (Z.of_nat (length iterable)) n
  /\ n * (Z.of_nat (length (batched iterable n)) - 1)
       < Z.of_nat (length iterable)
       <= n * Z.of_nat (length (batched iterable n))
  /\ concat (batched iterable n) = iterable
  /\ Forall (fun g => 0 < Z.of_nat (length g) <= n) (batched iterable n)
  /\ (forall gs g, batched iterable n = gs ++ [g] ->
        Forall (fun x => Z.of_nat (length x) = n) gs)
  /\ batched (@nil A) n = [].
Proof.
  intros Hn.
  assert (Hcount : Z.of_nat (length (batched iterable n))
                   = ceil_div (Z.of_nat (length iterable)) n).
  { unfold batched. now rewrite batched_from_count by (simpl; lia). }
  split; [exact Hcount|]. split.
  { rewrite Hcount. now apply ceil_div_bounds. }
  unfold batched. repeat split.
  - apply batched_from_concat.
  - apply batched_from_group_size; simpl; lia.
  - intros gs g. apply batched_from_full; simpl; lia.
Qed.

Lemma batched_positive_spec_witness :
  0 < 3
  /\ batched [1; 2; 3; 4; 5; 6; 7] 3 = [[1; 2; 3]; [4; 5; 6]; [7]]
  /\ Z.of_nat (length (batched [1; 2; 3; 4; 5; 6; 7] 3)) = ceil_div 7 3
  /\ concat (batched [1; 2; 3; 4; 5; 6; 7] 3) = [1; 2; 3; 4; 5; 6; 7].
Proof.
  pose proof (batched_positive_spec [1; 2; 3; 4; 5; 6; 7] 3 eq_refl)
    as (Hcount & _ & Hcat & _).
  split; [lia|]. split; [reflexivity|]. split; [exact Hcount | exact Hcat].
Defined.

(** C9. For a batch size [n <= 0] the generator still terminates ([batched]
    is a total function) and yields one singleton group per input item, in
    input order. *)
Theorem batched_nonpositive_singletons {A : Type} (iterable : list A) (n : Z) :
  n <= 0 -> batched iterable n = map (fun x => [x]) iterable.
Proof. apply batched_from_nonpositive. Qed.

Lemma batched_nonpositive_singletons_witness :
  -2 <= 0 /\ batched ["a"; "b"; "c"] (-2) = [["a"]; ["b"]; ["c"]].
Proof.
  split; [lia|].
  exact (batched_nonpositive_singletons ["a"; "b"; "c"] (-2) ltac:(lia)).
Defined.

(** ** Name Filter *)

Section FilterFacts.
Context {E : Regex}.

Lemma filter_subseq {A : Type} (f : A -> bool) (l : list A) :
  subseq (filter f l) l.
Proof.
  induction l as [|x l IH]; simpl; [constructor|].
  destruct (f x); now constructor.
Qed.

Lemma subseq_trans {A : Type} (l1 l2 l3 : list A) :
  subseq l1 l2 -> subseq l2 l3 -> subseq l1 l3.
Proof.
  intros H12 H23. revert l1 H12.
  induction H23 as [|x l2 l3 _ IH|x l2 l3 _ IH]; intros l1 H12.
  - exact H12.
  - inversion H12; subst; constructor; now apply IH.
  - constructor. now apply IH.
Qed.

Lemma filter_all {A : Type} (f : A -> bool) (l : list A) :
  (forall x, f x = true) -> filter f l = l.
Proof.
  intros Hf. induction l as [|x l IH]; simpl; [reflexivity|].
  now rewrite Hf, IH.
Qed.

Lemma truthy_starts_with (p : option string) (names : list string) :
  match truthy p with
  | Some q => filter (fun n => String.prefix q n) names
  | None => names
  end = filter (starts_with p) names.
Proof.
  destruct p as [q|]; simpl;
    [|symmetry; apply filter_all; intros; reflexivity].
  destruct (String.eqb_spec q "") as [->|_]; [|reflexivity].
  symmetry; apply filter_all; intros [|c n]; reflexivity.
Qed.

Lemma filter_buckets_eq (names : list string) (p r : option string) :
  (forall pat, truthy r = Some pat -> re_compile pat <> None) ->
  filter_buckets names p r
  = Ret (filter (fun n => negb (excluded r n)) (filter (starts_with p) names)).
Proof.
  intros Hvalid. unfold filter_buckets, excluded.
  rewrite truthy_starts_with.
  destruct (truthy r) as [pat|].
  - specialize (Hvalid pat eq_refl).
    destruct (re_compile pat) as [rx|]; [reflexivity | contradiction].
  - rewrite (filter_all (fun _ => negb false)); [reflexivity|].
    intros; reflexivity.
Qed.

Lemma filter_buckets_invalid (names : list string) (p : option string)
    (pat : string) :
  pat <> "" -> re_compile pat = None ->
  filter_buckets names p (Some pat) = Raise ReError.
Proof.
  intros Hne Hbad. unfold filter_buckets.
  replace (truthy (Some pat)) with (Some pat).
  - now rewrite Hbad.
  - simpl. now destruct (String.eqb_spec pat "").
Qed.

End FilterFacts.

(** C8, as amended.  For every name list and optional filters whose exclude
    regex, when given and not empty, is a valid pattern, [filter_buckets]
    returns the names that start with the include prefix (when given) and
    that the exclude regex does not match anywhere; the regex is applied
    only when it is given and not empty (an empty exclude regex excludes
    nothing).  The result is a function of the arguments, keeps the input
    order (it is the input with names left out), and the input list is only
    read.  With a regex engine for which ["2$"] matches ["a2"] and not
    ["a1"], filtering [["a1"; "a2"; "b1"]] by prefix ["a"] and regex ["2$"]
    gives [["a1"]]. *)
Theorem filter_buckets_truthy_spec {E : Regex} :
  (forall (names : list string) (p r : option string),
      (forall pat, truthy r = Some pat -> re_compile pat <> None) ->
      exists out,
        filter_buckets names p r = Ret out
        /\ out = filter (fun n => negb (excluded r n))
                   (filter (starts_with p) names)
        /\ subseq out names
        /\ (forall n, In n out <->
              In n names /\ starts_with p n = true /\ excluded r n = false))
  /\ (forall rx : compiled,
        re_compile "2$" = Some rx ->
        re_search rx "a1" = false ->
        re_search rx "a2" = true ->
        filter_buckets ["a1"; "a2"; "b1"] (Some "a") (Some "2$") = Ret ["a1"]).
Proof.
  split.
  - intros names p r Hvalid. eexists. split; [now apply filter_buckets_eq|].
    split; [reflexivity|]. split.
    + apply (subseq_trans _ (filter (starts_with p) names));
        apply filter_subseq.
    + intros n. rewrite !filter_In, negb_true_iff. tauto.
  - intros rx Hrx H1 H2. unfold filter_buckets. simpl. now rewrite Hrx, H1, H2.
Qed.

Lemma filter_buckets_truthy_spec_witness :
  (exists out,
      filter_buckets (E := MiniRe.engine) ["a1"; "a2"; "b1"] (Some "a") (Some "2$")
      = Ret out
      /\ subseq out ["a1"; "a2"; "b1"])
  /\ filter_buckets (E := MiniRe.engine) ["a1"; "a2"; "b1"] (Some "a") (Some "2$")
     = Ret ["a1"].
Proof.
  destruct (filter_buckets_truthy_spec (E := MiniRe.engine)) as [Hgen Hex].
  split.
  - destruct (Hgen ["a1"; "a2"; "b1"] (Some "a") (Some "2$")) as (out & H1 & _ & H3 & _).
    + intros pat Hpat. injection Hpat as <-. discriminate.
    + exists out. split; assumption.
  - exact (Hex {| MiniRe.anchored := false;
                  MiniRe.items := [MiniRe.One (MiniRe.Lit "2"); MiniRe.Eol] |}
             eq_refl eq_refl eq_refl).
Defined.

(** C8, as the specification states it, fails: with the empty pattern given
    as exclude regex, which matches anywhere in every name, the
    specification's filter drops ["a1"] and [filter_buckets] keeps it. *)
Lemma filter_buckets_ignores_empty_regex :
  MiniRe.compile "" = Some {| MiniRe.anchored := false; MiniRe.items := [] |}
  /\ MiniRe.search {| MiniRe.anchored := false; MiniRe.items := [] |} "a1" = true
  /\ filter_spec (E := MiniRe.engine) ["a1"] None (Some "") = Ret []
  /\ filter_buckets (E := MiniRe.engine) ["a1"] None (Some "") = Ret ["a1"]
  /\ filter_buckets (E := MiniRe.engine) ["a1"] None (Some "")
     <> filter_spec (E := MiniRe.engine) ["a1"] None (Some "").
Proof. repeat split; discriminate. Qed.

(** ** Retry backoff *)

Lemma delay_le_cap (i : nat) (base cap : Q) : (delay i base cap <= cap)%Q.
Proof. unfold delay. rewrite Qred_correct. apply Q.le_min_r. Qed.

Lemma delay_monotone (i j : nat) (base cap : Q) :
  (0 <= base)%Q -> (i <= j)%nat ->
  (delay i base cap <= delay j base cap)%Q.
Proof.
  intros Hbase Hij. unfold delay. rewrite !Qred_correct.
  apply Q.min_le_compat_r. apply Qmult_le_compat_r; [|exact Hbase].
  rewrite <- Zle_Qle. apply Z.pow_le_mono_r; lia.
Qed.

Lemma delay_flat (i : nat) (base cap : Q) :
  (cap <= inject_Z (2 ^ Z.of_nat i) * base)%Q -> (delay i base cap == cap)%Q.
Proof.
  intros Hcap. unfold delay. rewrite Qred_correct. now apply Q.min_r.
Qed.

(** From attempt 1024 on, the retry loop of [delete_bucket] raises
    [OverflowError] when it has to sleep. *)
Lemma delete_bucket_overflow :
  fst (delete_bucket (refusing_s3 1025 (Ret tt)) "b" 1025 init_world)
  = Raise OverflowError.
Proof. vm_compute. reflexivity. Qed.

(** ** Draining an empty bucket *)

Lemma drain_empty_pages (s3 : Provider) (bucket : string) (n r : Z)
    (pages : list page_fetch) :
  Forall (fun p => p = Page []) pages ->
  forall total w,
    drain_pages s3 bucket n r pages total w
    = (Ret (Continue total),
       {| n_paginate := n_paginate w;
          n_delete_objects := n_delete_objects w;
          n_delete_bucket := n_delete_bucket w;
          trace := trace w ++ repeat (ListObjects bucket) (length pages) |}).
Proof.
  induction 1 as [|p ps -> _ IH]; intros total w; simpl.
  - destruct w; unfold ret; simpl. now rewrite app_nil_r.
  - unfold bind at 1. simpl. rewrite IH. simpl.
    now rewrite <- app_assoc.
Qed.

(** A bucket that holds no object: [deleted = 0], status emptied, and no
    delete call. *)
Lemma empty_bucket_already_empty (s3 : Provider) (bucket : string)
    (n r : Z) (w : world) :
  Forall (fun p => p = Page []) (list_objects_v2 s3 (n_paginate w) bucket) ->
  exists w',
    empty_bucket s3 bucket n r w
    = (Ret {| s_bucket := bucket; s_deleted := 0; s_status := emptied;
              s_final := None |}, w')
    /\ n_delete_objects w' = n_delete_objects w
    /\ delete_calls (trace w') = delete_calls (trace w).
Proof.
  intros Hempty. unfold empty_bucket, bind at 1, call_paginate.
  unfold bind at 1. rewrite drain_empty_pages by exact Hempty.
  eexists. split; [reflexivity|]. split; [reflexivity|]. simpl.
  unfold delete_calls. rewrite flat_map_app.
  induction (length _) as [|k IH]; simpl; [now rewrite app_nil_r | exact IH].
Qed.

(** ** Bucket Drainer *)

Section DrainFacts.
Variable s3 : Provider.
Variable bucket : string.

Lemma delete_batches_app (r : Z) (bs1 bs2 : list (list string)) :
  forall total w,
    delete_batches s3 bucket r (bs1 ++ bs2) total w
    = match delete_batches s3 bucket r bs1 total w with
      | (Ret (Continue t), w1) => delete_batches s3 bucket r bs2 t w1
      | other => other
      end.
Proof.
  induction bs1 as [|b bs1 IH]; intros total w; simpl; [reflexivity|].
  unfold bind.
  destruct (delete_attempts s3 bucket (range r) b total w) as [[[t|t]|e] w1];
    auto.
Qed.

Lemma drain_pages_app (n r : Z) (ps1 ps2 : list page_fetch) :
  forall total w,
    drain_pages s3 bucket n r (ps1 ++ ps2) total w
    = match drain_pages s3 bucket n r ps1 total w with
      | (Ret (Continue t), w1) => drain_pages s3 bucket n r ps2 t w1
      | other => other
      end.
Proof.
  induction ps1 as [|p ps1 IH]; intros total w; simpl; [reflexivity|].
  unfold bind at 1 3. simpl.
  destruct p as [[|k ks]|e]; [apply IH| |reflexivity].
  unfold bind.
  destruct (delete_batches s3 bucket r (batched (k :: ks) n) total _)
    as [[[t|t]|e] w1]; auto.
Qed.

Lemma delete_attempts_exhausted (attempts : list nat) :
  forall batch total w,
    all_attempts_fail s3 bucket attempts (n_delete_objects w) batch = true ->
    exists w',
      delete_attempts s3 bucket attempts batch total w
      = (Raise (if forallb (fun i => (i <? 1024)%nat) attempts
                then RuntimeError (retries_message bucket)
                else OverflowError), w').
Proof.
  induction attempts as [|attempt later IH]; intros batch total w Hfail.
  - eexists. reflexivity.
  - simpl in Hfail. simpl delete_attempts.
    unfold bind at 1, catch, call_delete_objects.
    destruct (delete_objects s3 (n_delete_objects w) bucket batch true)
      as [resp|e].
    + destruct (Errors resp) as [|k ks] eqn:Herr; [discriminate|].
      unfold bind, sleep_backoff, backoff. simpl forallb.
      destruct (attempt <? 1024)%nat; simpl; [|eexists; reflexivity].
      apply IH. exact Hfail.
    + destruct e as [code| | | | |]; try discriminate.
      apply andb_true_iff in Hfail as [Hcode Hfail].
      apply negb_true_iff in Hcode. rewrite Hcode.
      unfold bind, sleep_backoff, backoff. simpl forallb.
      destruct (attempt <? 1024)%nat; simpl; [|eexists; reflexivity].
      apply IH. exact Hfail.
Qed.

Lemma range_below_1024 (r : Z) :
  r <= 1024 -> forallb (fun i => (i <? 1024)%nat) (range r) = true.
Proof.
  intros Hr. apply forallb_forall. intros i Hi.
  apply in_seq in Hi. apply Nat.ltb_lt. lia.
Qed.

Lemma empty_bucket_listing_error (n r : Z) (w : world) (e : exn)
    (rest : list page_fetch) :
  list_objects_v2 s3 (n_paginate w) bucket = PageError e :: rest ->
  empty_bucket s3 bucket n r w
  = (Raise e,
     {| n_paginate := S (n_paginate w);
        n_delete_objects := n_delete_objects w;
        n_delete_bucket := n_delete_bucket w;
        trace := trace w ++ [ListObjects bucket] |}).
Proof.
  intros Hlist. unfold empty_bucket, bind, call_paginate.
  rewrite Hlist. reflexivity.
Qed.

(** Against a service that honours quiet mode the running total never
    moves. *)
Lemma delete_attempts_quiet (attempts : list nat) :
  honours_quiet s3 ->
  forall batch total w f w',
    delete_attempts s3 bucket attempts batch total w = (Ret f, w') ->
    f = Continue total \/ f = ReturnGone total.
Proof.
  intros Hq. induction attempts as [|attempt later IH];
    intros batch total w f w'; simpl delete_attempts; [discriminate|].
  unfold bind at 1, catch, call_delete_objects.
  destruct (delete_objects s3 (n_delete_objects w) bucket batch true)
    as [resp|e] eqn:Hcall.
  - rewrite (Hq _ _ _ _ Hcall). unfold len. simpl length.
    rewrite Z.add_0_r.
    destruct (Errors resp) as [|k ks].
    + intros [= <- _]. now left.
    + unfold bind, sleep_backoff. destruct (backoff attempt (1 # 4) 4);
        simpl; [apply IH | discriminate].
  - destruct e as [code| | | | |]; try discriminate.
    destruct (is_no_such_bucket code).
    + intros [= <- _]. now right.
    + unfold bind, sleep_backoff. destruct (backoff attempt (1 # 2) 4);
        simpl; [apply IH | discriminate].
Qed.

Lemma delete_batches_quiet (r : Z) (batches : list (list string)) :
  honours_quiet s3 ->
  forall total w f w',
    delete_batches s3 bucket r batches total w = (Ret f, w') ->
    f = Continue total \/ f = ReturnGone total.
Proof.
  intros Hq. induction batches as [|b bs IH]; intros total w f w'; simpl.
  - intros [= <- _]. now left.
  - unfold bind.
    destruct (delete_attempts s3 bucket (range r) b total w) as [[g|e] w1] eqn:Ha;
      [|discriminate].
    destruct (delete_attempts_quiet _ Hq _ _ _ _ _ Ha) as [-> | ->].
    + apply IH.
    + intros [= <- _]. now right.
Qed.

Lemma drain_pages_quiet (n r : Z) (pages : list page_fetch) :
  honours_quiet s3 ->
  forall total w f w',
    drain_pages s3 bucket n r pages total w = (Ret f, w') ->
    f = Continue total \/ f = ReturnGone total.
Proof.
  intros Hq. induction pages as [|p ps IH]; intros total w f w'; simpl.
  - intros [= <- _]. now left.
  - unfold bind at 1. simpl.
    destruct p as [[|k ks]|e]; [apply IH| |discriminate].
    unfold bind.
    destruct (delete_batches s3 bucket r (batched (k :: ks) n) total _)
      as [[g|e] w1] eqn:Hb; [|discriminate].
    destruct (delete_batches_quiet _ _ Hq _ _ _ _ Hb) as [-> | ->].
    + apply IH.
    + intros [= <- _]. now right.
Qed.

Lemma empty_bucket_quiet_counts_nothing (n r : Z) (w w' : world)
    (s : summary) :
  honours_quiet s3 ->
  empty_bucket s3 bucket n r w = (Ret s, w') -> s_deleted s = 0.
Proof.
  intros Hq. unfold empty_bucket, bind at 1, call_paginate. unfold bind.
  destruct (drain_pages s3 bucket n r _ 0 _) as [[f|e] w1] eqn:Hd;
    [|discriminate].
  destruct (drain_pages_quiet _ _ _ Hq _ _ _ _ Hd) as [-> | ->];
    intros [= <- _]; reflexivity.
Qed.

End DrainFacts.

(** C3.  The first page holds the keys [k0 .. k999]; the service honours
    quiet mode, reports [k3] and [k77] as errors on the first call and
    succeeds on the second.  [empty_bucket] makes exactly two delete calls,
    the second one on the two failed keys, and returns with
    [deleted = 0]: the quiet responses list no deleted key, so none of the
    1000 keys is counted.  The count is 1000 against a service that lists
    the deleted keys although asked to be quiet, and 0 for every drain
    against a service that honours quiet mode. *)
Theorem quiet_partial_failure_counts_no_key :
  len thousand_keys = 1000
  /\ honours_quiet (partial_failure_s3 true)
  /\ fst (empty_bucket (partial_failure_s3 true) "b" 1000 5 init_world)
     = Ret {| s_bucket := "b"; s_deleted := 0; s_status := emptied;
              s_final := None |}
  /\ delete_calls
       (trace (snd (empty_bucket (partial_failure_s3 true) "b" 1000 5 init_world)))
     = [thousand_keys; ["k3"; "k77"]]
  /\ fst (empty_bucket (partial_failure_s3 false) "b" 1000 5 init_world)
     = Ret {| s_bucket := "b"; s_deleted := 1000; s_status := emptied;
              s_final := None |}
  /\ (forall (s3 : Provider) (bucket : string) (n r : Z) (w w' : world)
             (s : summary),
        honours_quiet s3 ->
        empty_bucket s3 bucket n r w = (Ret s, w') -> s_deleted s = 0).
Proof.
  split; [reflexivity|]. split.
  - intros [|k] bucket objects resp; simpl; intros [= <-]; reflexivity.
  - split; [vm_compute; reflexivity|]. split; [vm_compute; reflexivity|].
    split; [vm_compute; reflexivity|].
    intros s3 bucket n r w w' s. apply empty_bucket_quiet_counts_nothing.
Qed.

(** C4.  The service reports bucket-not-found when the first page is
    listed.  [empty_bucket] makes no delete call, but it does not return a
    ["gone"] result: the [ClientError] of the listing leaves the function,
    and the scheduler echoes it as an error of the bucket.  So does every
    exception raised when the first page is fetched. *)
Theorem listing_not_found_raises :
  empty_bucket vanished_s3 "b" 1000 5 init_world
  = (Raise (ClientError (Some "NoSuchBucket")),
     {| n_paginate := 1; n_delete_objects := 0; n_delete_bucket := 0;
        trace := [ListObjects "b"] |})
  /\ run vanished_s3 ["b"] ["b"] 16 1000 false true
     = Ret {| exit_code := 0; results := [];
              error_lines := [("b", ClientError (Some "NoSuchBucket"))];
              success_line := (0, 1); failed_lines := [] |}
  /\ (forall (s3 : Provider) (bucket : string) (n r : Z) (w : world)
             (e : exn) (rest : list page_fetch),
        list_objects_v2 s3 (n_paginate w) bucket = PageError e :: rest ->
        empty_bucket s3 bucket n r w
        = (Raise e,
           {| n_paginate := S (n_paginate w);
              n_delete_objects := n_delete_objects w;
              n_delete_bucket := n_delete_bucket w;
              trace := trace w ++ [ListObjects bucket] |})).
Proof.
  split; [reflexivity|]. split; [reflexivity|].
  intros s3 bucket n r w e rest. apply empty_bucket_listing_error.
Qed.

(** C5.  Whatever the drain has done before (the pages [pages1] and the
    batches [batches1] of the current page are done), when every one of the
    [max_delete_retries] attempts on a batch completes without the batch
    fully succeeding -- per-key errors, after which the batch is narrowed
    to the failed keys, or a client error other than not-found --
    [empty_bucket] raises: it returns no result.  The exception is the
    [RuntimeError] of line 74 when [max_delete_retries <= 1024]. *)
Theorem exhausted_retries_raise (s3 : Provider) (bucket : string)
    (batch_size max_delete_retries : Z) (w : world)
    (pages1 pages2 : list page_fetch) (keys : list string)
    (batches1 batches2 : list (list string)) (batch : list string)
    (t1 t2 : Z) (w1 w2 : world) :
  list_objects_v2 s3 (n_paginate w) bucket = pages1 ++ Page keys :: pages2 ->
  batched keys batch_size = batches1 ++ batch :: batches2 ->
  drain_pages s3 bucket batch_size max_delete_retries pages1 0
    (snd (call_paginate s3 bucket w)) = (Ret (Continue t1), w1) ->
  delete_batches s3 bucket max_delete_retries batches1 t1
    (snd (log (ListObjects bucket) w1)) = (Ret (Continue t2), w2) ->
  all_attempts_fail s3 bucket (range max_delete_retries)
    (n_delete_objects w2) batch = true ->
  exists e w',
    empty_bucket s3 bucket batch_size max_delete_retries w = (Raise e, w')
    /\ (max_delete_retries <= 1024 ->
        e = RuntimeError (retries_message bucket)).
Proof.
  intros Hlist Hbatched Hpages Hbatches Hfail.
  destruct (delete_attempts_exhausted s3 bucket _ batch t2 w2 Hfail)
    as [w' Hraise].
  exists (if forallb (fun i => (i <? 1024)%nat) (range max_delete_retries)
          then RuntimeError (retries_message bucket) else OverflowError), w'.
  split; [|intros Hr; now rewrite range_below_1024].
  unfold empty_bucket, bind at 1.
  change (call_paginate s3 bucket w)
    with (Ret (list_objects_v2 s3 (n_paginate w) bucket),
          snd (call_paginate s3 bucket w)).
  cbv iota. rewrite Hlist. unfold bind at 1.
  rewrite drain_pages_app, Hpages.
  destruct keys as [|k ks]; [now destruct batches1|].
  simpl drain_pages. unfold bind at 1.
  change (log (ListObjects bucket) w1)
    with (Ret tt, snd (log (ListObjects bucket) w1)).
  cbv iota. unfold bind at 1.
  rewrite Hbatched, delete_batches_app, Hbatches.
  simpl delete_batches. unfold bind at 1. rewrite Hraise. reflexivity.
Qed.

Lemma exhausted_retries_raise_witness :
  exists e w',
    empty_bucket throttled_s3 "b" 2 5 init_world = (Raise e, w')
    /\ (5 <= 1024 -> e = RuntimeError (retries_message "b")).
Proof.
  eapply (exhausted_retries_raise throttled_s3 "b" 2 5 init_world
            [] [] ["k1"; "k2"; "k3"] [["k1"; "k2"]] [] ["k3"] 0 0);
    reflexivity.
Defined.

(** ** Bucket Remover *)

Section RemoveFacts.
Variable s3 : Provider.
Variable bucket : string.

Lemma after_no_call (w : world) : after_bucket_calls w 0 [] = w.
Proof.
  destruct w as [a b c t]. unfold after_bucket_calls. simpl.
  now rewrite Nat.add_0_r, app_nil_r.
Qed.

Lemma delete_bucket_attempts_app (l1 l2 : list nat) :
  forall w,
    delete_bucket_attempts s3 bucket (l1 ++ l2) w
    = match delete_bucket_attempts s3 bucket l1 w with
      | (Ret None, w1) => delete_bucket_attempts s3 bucket l2 w1
      | other => other
      end.
Proof.
  induction l1 as [|i l1 IH]; intros w; simpl; [reflexivity|].
  unfold bind at 1 3, catch, call_delete_bucket.
  destruct (s3_delete_bucket s3 (n_delete_bucket w) bucket) as [u|e];
    [reflexivity|].
  destruct e as [code| | | | |]; try reflexivity.
  destruct (is_no_such_bucket code); [reflexivity|].
  unfold bind, sleep_backoff. destruct (backoff i (1 # 2) 5); simpl;
    [apply IH | reflexivity].
Qed.

Lemma attempts_all_transient (n : nat) :
  forall first w,
    (first + n <= 1024)%nat ->
    (forall k, (k < n)%nat -> transient (answer_at s3 bucket w k) = true) ->
    delete_bucket_attempts s3 bucket (seq first n) w
    = (Ret None, after_bucket_calls w n (retry_trace bucket first n)).
Proof.
  induction n as [|n IH]; intros first w Hcap Htr.
  - simpl. unfold ret, retry_trace. simpl. now rewrite after_no_call.
  - simpl seq. simpl delete_bucket_attempts.
    unfold bind at 1, catch, call_delete_bucket.
    pose proof (Htr 0%nat ltac:(lia)) as H0. unfold answer_at in H0.
    rewrite Nat.add_0_r in H0.
    destruct (s3_delete_bucket s3 (n_delete_bucket w) bucket) as [u|e];
      [discriminate|].
    destruct e as [code| | | | |]; try discriminate.
    simpl in H0. apply negb_true_iff in H0. rewrite H0.
    unfold bind, sleep_backoff, backoff.
    replace (first <? 1024)%nat with true
      by (symmetry; apply Nat.ltb_lt; lia).
    simpl. rewrite IH.
    + unfold after_bucket_calls, retry_trace. simpl.
      f_equal. f_equal; [lia|].
      now rewrite <- !app_assoc.
    + lia.
    + intros k Hk. specialize (Htr (S k) ltac:(lia)).
      unfold answer_at in *. simpl.
      now replace (S (n_delete_bucket w + k))
        with (n_delete_bucket w + S k)%nat by lia.
Qed.

Lemma attempts_return_no_error (attempts : list nat) :
  forall w,
    Forall (fun i => (i < 1024)%nat) attempts ->
    (forall k, (k < length attempts)%nat ->
       client_answer (answer_at s3 bucket w k) = true) ->
    exists o w',
      delete_bucket_attempts s3 bucket attempts w = (Ret o, w')
      /\ (o = None \/ o = Some deleted \/ o = Some gone).
Proof.
  induction attempts as [|i later IH]; intros w Hcap Hans.
  - exists None, w. split; [reflexivity | now left].
  - simpl delete_bucket_attempts.
    unfold bind at 1, catch, call_delete_bucket.
    pose proof (Hans 0%nat ltac:(simpl; lia)) as H0. unfold answer_at in H0.
    rewrite Nat.add_0_r in H0.
    destruct (s3_delete_bucket s3 (n_delete_bucket w) bucket) as [u|e].
    + eexists _, _. split; [reflexivity | tauto].
    + destruct e as [code| | | | |]; try discriminate.
      destruct (is_no_such_bucket code).
      * eexists _, _. split; [reflexivity | tauto].
      * inversion Hcap as [|? ? Hi Hlater]; subst.
        unfold bind, sleep_backoff, backoff.
        replace (i <? 1024)%nat with true
          by (symmetry; now apply Nat.ltb_lt).
        simpl. apply IH; [assumption|].
        intros k Hk. specialize (Hans (S k) ltac:(simpl; lia)).
        unfold answer_at in *. simpl.
        now replace (S (n_delete_bucket w + k))
          with (n_delete_bucket w + S k)%nat by lia.
Qed.

Lemma range_split (retries : Z) (j : nat) :
  (j < Z.to_nat retries)%nat ->
  range retries = seq 0 j ++ j :: seq (S j) (Z.to_nat retries - S j).
Proof.
  intros Hj. unfold range.
  replace (Z.to_nat retries) with (j + S (Z.to_nat retries - S j))%nat at 1
    by lia.
  now rewrite seq_app.
Qed.

Lemma delete_bucket_conclusive (retries : Z) (w : world) (j : nat)
    (s : status) :
  retries <= 1024 ->
  (j < Z.to_nat retries)%nat ->
  (forall k, (k < j)%nat -> transient (answer_at s3 bucket w k) = true) ->
  (answer_at s3 bucket w j = Ret tt /\ s = deleted
   \/ answer_at s3 bucket w j = Raise (ClientError (Some "NoSuchBucket"))
      /\ s = gone) ->
  delete_bucket s3 bucket retries w
  = (Ret s,
     after_bucket_calls w (S j) (retry_trace bucket 0 j ++ [DeleteBucket bucket])).
Proof.
  intros Hcap Hj Htr Hans. unfold delete_bucket, bind at 1.
  rewrite (range_split retries j Hj), delete_bucket_attempts_app.
  rewrite attempts_all_transient by (trivial; lia).
  simpl delete_bucket_attempts. unfold bind at 1, catch, call_delete_bucket.
  unfold answer_at in Hans.
  change (n_delete_bucket (after_bucket_calls w j (retry_trace bucket 0 j)))
    with (n_delete_bucket w + j)%nat.
  assert (Hw : forall t,
    {| n_paginate := n_paginate (after_bucket_calls w j (retry_trace bucket 0 j));
       n_delete_objects := n_delete_objects (after_bucket_calls w j (retry_trace bucket 0 j));
       n_delete_bucket := S (n_delete_bucket w + j);
       trace := trace (after_bucket_calls w j (retry_trace bucket 0 j)) ++ t |}
    = after_bucket_calls w (S j) (retry_trace bucket 0 j ++ t)).
  { intros t. unfold after_bucket_calls. simpl. f_equal; [lia|].
    now rewrite app_assoc. }
  destruct Hans as [[-> ->] | [-> ->]]; simpl; unfold ret; now rewrite Hw.
Qed.

Lemma delete_bucket_raises (retries : Z) (w : world) (j : nat) (e : exn) :
  retries <= 1024 ->
  (j < Z.to_nat retries)%nat ->
  (forall k, (k < j)%nat -> transient (answer_at s3 bucket w k) = true) ->
  answer_at s3 bucket w j = Raise e ->
  client_answer (Raise e) = false ->
  delete_bucket s3 bucket retries w
  = (Raise e,
     after_bucket_calls w (S j) (retry_trace bucket 0 j ++ [DeleteBucket bucket])).
Proof.
  intros Hcap Hj Htr Hans Hother. unfold delete_bucket, bind at 1.
  rewrite (range_split retries j Hj), delete_bucket_attempts_app.
  rewrite attempts_all_transient by (trivial; lia).
  simpl delete_bucket_attempts. unfold bind at 1, catch, call_delete_bucket.
  unfold answer_at in Hans.
  change (n_delete_bucket (after_bucket_calls w j (retry_trace bucket 0 j)))
    with (n_delete_bucket w + j)%nat.
  rewrite Hans.
  assert (Hw :
    {| n_paginate := n_paginate (after_bucket_calls w j (retry_trace bucket 0 j));
       n_delete_objects := n_delete_objects (after_bucket_calls w j (retry_trace bucket 0 j));
       n_delete_bucket := S (n_delete_bucket w + j);
       trace := trace (after_bucket_calls w j (retry_trace bucket 0 j))
                ++ [DeleteBucket bucket] |}
    = after_bucket_calls w (S j) (retry_trace bucket 0 j ++ [DeleteBucket bucket])).
  { unfold after_bucket_calls. simpl. f_equal; [lia|]. now rewrite app_assoc. }
  destruct e as [code| | | | |]; try discriminate Hother;
    unfold raise; now rewrite Hw.
Qed.

Lemma delete_bucket_fallback (retries : Z) (w : world) :
  retries <= 1024 ->
  (forall k, (k < Z.to_nat retries)%nat ->
     transient (answer_at s3 bucket w k) = true) ->
  delete_bucket s3 bucket retries w
  = match (empty_bucket s3 bucket 1000 5 ;; call_delete_bucket s3 bucket)
            (after_bucket_calls w (Z.to_nat retries)
               (retry_trace bucket 0 (Z.to_nat retries))) with
    | (Ret _, w') => (Ret deleted, w')
    | (Raise _, w') => (Ret failed, w')
    end.
Proof.
  intros Hcap Htr. unfold delete_bucket, bind at 1, range.
  rewrite attempts_all_transient by (trivial; lia).
  unfold bind at 1, catch, fallback_pass.
  now destruct (bind _ _ _) as [[u|e] w'].
Qed.

Lemma delete_bucket_returns (retries : Z) (w : world) :
  retries <= 1024 ->
  (forall k, (k < Z.to_nat retries)%nat ->
     client_answer (answer_at s3 bucket w k) = true) ->
  exists s w',
    delete_bucket s3 bucket retries w = (Ret s, w')
    /\ (s = deleted \/ s = gone \/ s = failed).
Proof.
  intros Hcap Hans.
  destruct (attempts_return_no_error (range retries) w) as (o & w1 & Hrun & Ho).
  - apply Forall_forall. intros i Hi. apply in_seq in Hi. lia.
  - unfold range. now rewrite length_seq.
  - unfold delete_bucket, bind at 1. rewrite Hrun.
    destruct Ho as [-> | [-> | ->]].
    + unfold bind, catch.
      destruct (fallback_pass s3 bucket w1) as [[u|e] w'];
        eexists _, _; (split; [reflexivity | tauto]).
    + eexists _, _. split; [reflexivity | tauto].
    + eexists _, _. split; [reflexivity | tauto].
Qed.

End RemoveFacts.

(** C6, as amended.  For [retries <= 1024]: when every failure of a
    delete-bucket call in the retry loop is a client error, [delete_bucket]
    returns a status among deleted, gone and failed and raises nothing.  It
    makes up to [retries] attempts, attempt [i] being followed, when it
    fails for a reason other than not-found, by a sleep of
    [min(2^i * 0.5, 5.0)] seconds; the first attempt that succeeds returns
    deleted, a not-found error at an attempt returns gone, and an exception
    that is not a client error, at whatever attempt, leaves the function at
    once.  When all [retries] attempts fail for other reasons there is
    exactly one fallback pass, [empty_bucket] followed by one more
    delete-bucket call: deleted when both go through, failed when either
    raises, whatever the exception. *)
Theorem delete_bucket_client_errors_spec (s3 : Provider) (bucket : string)
    (retries : Z) (w : world) :
  retries <= 1024 ->
  ((forall k, (k < Z.to_nat retries)%nat ->
      client_answer (answer_at s3 bucket w k) = true) ->
   exists s w',
     delete_bucket s3 bucket retries w = (Ret s, w')
     /\ (s = deleted \/ s = gone \/ s = failed))
  /\ (forall j,
        (j < Z.to_nat retries)%nat ->
        (forall k, (k < j)%nat -> transient (answer_at s3 bucket w k) = true) ->
        (answer_at s3 bucket w j = Ret tt ->
         delete_bucket s3 bucket retries w
         = (Ret deleted,
            after_bucket_calls w (S j)
              (retry_trace bucket 0 j ++ [DeleteBucket bucket])))
        /\ (answer_at s3 bucket w j = Raise (ClientError (Some "NoSuchBucket")) ->
            delete_bucket s3 bucket retries w
            = (Ret gone,
               after_bucket_calls w (S j)
                 (retry_trace bucket 0 j ++ [DeleteBucket bucket])))
        /\ (forall e,
              answer_at s3 bucket w j = Raise e ->
              client_answer (Raise e) = false ->
              delete_bucket s3 bucket retries w
              = (Raise e,
                 after_bucket_calls w (S j)
                   (retry_trace bucket 0 j ++ [DeleteBucket bucket]))))
  /\ ((forall k, (k < Z.to_nat retries)%nat ->
         transient (answer_at s3 bucket w k) = true) ->
      delete_bucket s3 bucket retries w
      = match (empty_bucket s3 bucket 1000 5 ;; call_delete_bucket s3 bucket)
                (after_bucket_calls w (Z.to_nat retries)
                   (retry_trace bucket 0 (Z.to_nat retries))) with
        | (Ret _, w') => (Ret deleted, w')
        | (Raise _, w') => (Ret failed, w')
        end).
Proof.
  intros Hcap. split; [intros Hans; now apply delete_bucket_returns|]. split.
  - intros j Hj Htr. split; [|split].
    + intros Hj'. apply delete_bucket_conclusive; auto.
    + intros Hj'. apply delete_bucket_conclusive; auto.
    + intros e He Hother. now apply delete_bucket_raises.
  - now apply delete_bucket_fallback.
Qed.

Lemma delete_bucket_client_errors_spec_witness :
  (exists s w',
      delete_bucket (refusing_s3 2 (Ret tt)) "b" 5 init_world = (Ret s, w')
      /\ (s = deleted \/ s = gone \/ s = failed))
  /\ delete_bucket (refusing_s3 2 (Ret tt)) "b" 5 init_world
     = (Ret deleted,
        {| n_paginate := 0; n_delete_objects := 0; n_delete_bucket := 3;
           trace := [DeleteBucket "b"; Sleep (1 # 2); DeleteBucket "b";
                     Sleep 1; DeleteBucket "b"] |})
  /\ delete_bucket
       (refusing_s3 1 (Raise (OtherError "EndpointConnectionError"))) "b" 5
       init_world
     = (Raise (OtherError "EndpointConnectionError"),
        {| n_paginate := 0; n_delete_objects := 0; n_delete_bucket := 2;
           trace := [DeleteBucket "b"; Sleep (1 # 2); DeleteBucket "b"] |}).
Proof.
  assert (H1 : 5 <= 1024) by lia.
  assert (H2 : forall k, (k < Z.to_nat 5)%nat ->
            client_answer (answer_at (refusing_s3 2 (Ret tt)) "b" init_world k)
            = true).
  { intros k Hk. do 5 (destruct k as [|k]; [reflexivity|]).
    exfalso. simpl in Hk. lia. }
  destruct (delete_bucket_client_errors_spec
              (refusing_s3 2 (Ret tt)) "b" 5 init_world H1)
    as (Hret & Hfirst & _).
  destruct (delete_bucket_client_errors_spec
              (refusing_s3 1 (Raise (OtherError "EndpointConnectionError")))
              "b" 5 init_world H1)
    as (_ & Hother & _).
  split; [exact (Hret H2)|]. split.
  - apply (Hfirst 2%nat).
    + simpl. lia.
    + intros k Hk. do 2 (destruct k as [|k]; [reflexivity|]). exfalso. lia.
    + reflexivity.
  - apply (Hother 1%nat).
    + simpl. lia.
    + intros k Hk. destruct k as [|k]; [reflexivity|]. exfalso. lia.
    + reflexivity.
    + reflexivity.
Defined.

(** C6, as the specification states it, fails: when the delete-bucket call
    of the retry loop fails with an exception that is not a client error
    (here botocore's connection error), [delete_bucket] returns no status;
    the exception leaves the function. *)
Lemma delete_bucket_propagates_other_errors :
  delete_bucket unreachable_s3 "b" 5 init_world
  = (Raise (OtherError "EndpointConnectionError"),
     {| n_paginate := 0; n_delete_objects := 0; n_delete_bucket := 1;
        trace := [DeleteBucket "b"] |})
  /\ ~ (exists s w',
          delete_bucket unreachable_s3 "b" 5 init_world = (Ret s, w')).
Proof.
  split; [reflexivity|]. intros (s & w' & H). discriminate H.
Qed.

(** C10.  When the retry loop has run to its end and, in the fallback pass,
    the drain returns and the delete-bucket call raises bucket-not-found,
    [delete_bucket] returns failed, not gone. *)
Theorem fallback_not_found_is_failed (s3 : Provider) (bucket : string)
    (retries : Z) (w w1 w2 w3 : world) (s : summary) :
  delete_bucket_attempts s3 bucket (range retries) w = (Ret None, w1) ->
  empty_bucket s3 bucket 1000 5 w1 = (Ret s, w2) ->
  call_delete_bucket s3 bucket w2
  = (Raise (ClientError (Some "NoSuchBucket")), w3) ->
  delete_bucket s3 bucket retries w = (Ret failed, w3)
  /\ failed <> gone.
Proof.
  intros Hloop Hdrain Hcall. split; [|discriminate].
  unfold delete_bucket, bind at 1. rewrite Hloop.
  unfold bind at 1, catch, fallback_pass, bind at 1.
  now rewrite Hdrain, Hcall.
Qed.

Lemma fallback_not_found_is_failed_witness :
  delete_bucket (refusing_s3 1 (Raise (ClientError (Some "NoSuchBucket"))))
    "b" 1 init_world
  = (Ret failed,
     {| n_paginate := 1; n_delete_objects := 0; n_delete_bucket := 2;
        trace := [DeleteBucket "b"; Sleep (1 # 2); DeleteBucket "b"] |})
  /\ failed <> gone.
Proof.
  eapply (fallback_not_found_is_failed
            (refusing_s3 1 (Raise (ClientError (Some "NoSuchBucket"))))
            "b" 1 init_world);
    reflexivity.
Defined.

(** ** Run Scheduler *)

Section SchedulerFacts.
Variable s3 : Provider.

Lemma empty_bucket_bucket (bucket : string) (n r : Z) (w w' : world)
    (s : summary) :
  empty_bucket s3 bucket n r w = (Ret s, w') -> s_bucket s = bucket.
Proof.
  unfold empty_bucket, bind at 1, call_paginate. unfold bind.
  destruct (drain_pages s3 bucket n r _ 0 _) as [[[t|t]|e] w1];
    [| |discriminate]; intros [= <- _]; reflexivity.
Qed.

Lemma worker_bucket (bucket : string) (n : Z) (d : bool) (w w' : world)
    (r : summary) :
  worker s3 bucket n d w = (Ret r, w') -> s_bucket r = bucket.
Proof.
  unfold worker, bind at 1.
  destruct (empty_bucket s3 bucket n 5 w) as [[s|e] w1] eqn:Hs;
    [|discriminate].
  apply empty_bucket_bucket in Hs. destruct d.
  - unfold bind. destruct (delete_bucket s3 bucket 5 w1) as [[f|e] w2];
      [|discriminate].
    intros [= <- _]. exact Hs.
  - intros [= <- _]. exact Hs.
Qed.

Lemma future_result_bucket (bucket : string) (n : Z) (d : bool)
    (r : summary) :
  future_result s3 bucket n d = Ret r -> s_bucket r = bucket.
Proof.
  unfold future_result.
  destruct (worker s3 bucket n d init_world) as [r' w'] eqn:Hw.
  simpl. intros ->. now apply worker_bucket in Hw.
Qed.

Lemma worker_keep_final (bucket : string) (n : Z) (w w' : world)
    (r : summary) :
  worker s3 bucket n false w = (Ret r, w') -> s_final r = Some emptied.
Proof.
  unfold worker, bind at 1.
  destruct (empty_bucket s3 bucket n 5 w) as [[s|e] w1]; [|discriminate].
  intros [= <- _]. reflexivity.
Qed.

Lemma collect_keep_final (n : Z) (completed : list string) :
  Forall (fun r => s_final r = Some emptied)
    (fst (collect s3 n false completed)).
Proof.
  induction completed as [|b later IH]; simpl; [constructor|].
  destruct (collect s3 n false later) as [res errs]. unfold future_result.
  destruct (worker s3 b n false init_world) as [[r|e] w'] eqn:Hw; simpl;
    [|exact IH].
  constructor; [|exact IH]. now apply worker_keep_final in Hw.
Qed.

Lemma filter_none {A : Type} (f : A -> bool) (l : list A) :
  Forall (fun x => f x = false) l -> filter f l = [].
Proof.
  induction 1 as [|x l Hx _ IH]; simpl; [reflexivity|]. now rewrite Hx.
Qed.

Lemma filter_all_in {A : Type} (f : A -> bool) (l : list A) :
  (forall x, In x l -> f x = true) -> filter f l = l.
Proof.
  induction l as [|x l IH]; simpl; intros Hf; [reflexivity|].
  rewrite (Hf x) by now left. f_equal. apply IH. intros y Hy. apply Hf.
  now right.
Qed.

(** Without [--delete-bucket] no bucket is counted as a success, and the
    run exits with 2 as soon as one drain completes. *)
Lemma keep_mode_counts_no_success (t : string) (ts completion : list string)
    (max_workers n : Z) (rep : report) :
  run s3 (t :: ts) completion max_workers n false false = Ret rep ->
  fst (success_line rep) = 0
  /\ failed_lines rep = map (fun r => (s_bucket r, Some emptied)) (results rep)
  /\ (results rep <> [] -> exit_code rep = 2).
Proof.
  unfold run. destruct (max_workers <=? 0)%Z; [discriminate|].
  pose proof (collect_keep_final n completion) as Hall.
  destruct (collect s3 n false completion) as [res errs]. simpl in Hall.
  assert (Hok : filter final_ok res = []).
  { apply filter_none. eapply Forall_impl; [|exact Hall].
    intros r Hr. unfold final_ok. now rewrite Hr. }
  assert (Hng : filter (fun r => negb (final_ok r)) res = res).
  { apply filter_all_in. intros r Hr.
    rewrite Forall_forall in Hall. unfold final_ok. now rewrite (Hall r Hr). }
  intros [= <-]. simpl. rewrite Hok, Hng. repeat split.
  - apply map_ext_in. intros r Hr. rewrite Forall_forall in Hall.
    now rewrite (Hall r Hr).
  - intros Hne. now destruct res.
Qed.

Lemma collect_raised (n : Z) (d : bool) (b : string) (e : exn)
    (completed : list string) :
  future_result s3 b n d = Raise e ->
  ~ In b (map s_bucket (fst (collect s3 n d completed)))
  /\ (In b completed -> In (b, e) (snd (collect s3 n d completed))).
Proof.
  intros Hb. induction completed as [|c later [IH1 IH2]]; simpl;
    [split; tauto|].
  destruct (collect s3 n d later) as [res errs]. simpl in IH1, IH2.
  destruct (future_result s3 c n d) as [r|e'] eqn:Hc; simpl.
  - split.
    + intros [Heq | Hin]; [|tauto].
      rewrite (future_result_bucket _ _ _ _ Hc) in Heq. subst c. congruence.
    + intros [-> | Hin]; [congruence | tauto].
  - split; [exact IH1|].
    intros [-> | Hin]; [left; congruence | right; tauto].
Qed.

(** A bucket whose task raises is echoed on standard error and appears
    neither in [results] nor under [failed buckets:]. *)
Lemma raised_bucket_not_in_summary (targets completion : list string)
    (max_workers n : Z) (d : bool) (b : string) (e : exn) (rep : report) :
  targets <> [] ->
  run s3 targets completion max_workers n false d = Ret rep ->
  future_result s3 b n d = Raise e ->
  ~ In b (map fst (failed_lines rep))
  /\ (In b completion -> In (b, e) (error_lines rep)).
Proof.
  unfold run. destruct targets as [|t ts]; [congruence|].
  intros _.
  - destruct (max_workers <=? 0)%Z; [discriminate|].
    intros Hrun Hb.
    destruct (collect_raised n d b e completion Hb) as [Hres Herr].
    destruct (collect s3 n d completion) as [res errs].
    injection Hrun as <-. simpl in *. split; [|exact Herr].
    rewrite map_map. simpl. intros Hin. apply Hres.
    apply in_map_iff in Hin as (r & Hr & Hin).
    apply filter_In in Hin as [Hin _].
    apply in_map_iff. now exists r.
Qed.

End SchedulerFacts.

(** C1.  One target, [--delete-bucket] not set, the drain completes: the
    bucket gets the final status emptied, but it is not counted as a
    success: the summary reads [success: 0 / 1], the bucket is listed under
    [failed buckets:] and the exit code is 2.  In every run without
    [--delete-bucket] the success count is 0, every result is listed as a
    failed bucket with status emptied, and the exit code is 2 as soon as one
    drain completes. *)
Theorem kept_bucket_counts_as_failed :
  run healthy_s3 ["logs"] ["logs"] 16 1000 false false
  = Ret {| exit_code := 2;
           results := [{| s_bucket := "logs"; s_deleted := 0;
                          s_status := emptied; s_final := Some emptied |}];
           error_lines := [];
           success_line := (0, 1);
           failed_lines := [("logs", Some emptied)] |}
  /\ (forall (s3 : Provider) (t : string) (ts completion : list string)
             (max_workers n : Z) (rep : report),
        run s3 (t :: ts) completion max_workers n false false = Ret rep ->
        fst (success_line rep) = 0
        /\ failed_lines rep
           = map (fun r => (s_bucket r, Some emptied)) (results rep)
        /\ (results rep <> [] -> exit_code rep = 2)).
Proof.
  split; [reflexivity|].
  intros s3 t ts completion max_workers n rep.
  apply keep_mode_counts_no_success.
Qed.

(** C2.  Five targets with [--delete-bucket]; the drain of ["b3"] uses up
    its retries and raises, the four other buckets are deleted.  The error
    is echoed on standard error only: nothing is recorded for ["b3"] in
    [results], no bucket is listed under [failed buckets:], the summary
    reads [success: 4 / 5] and the exit code is 0.  In every run a bucket
    whose task raises is echoed on standard error and is not listed under
    [failed buckets:]. *)
Theorem raised_bucket_missing_from_summary :
  future_result b3_throttled_s3 "b3" 1000 true
  = Raise (RuntimeError (retries_message "b3"))
  /\ (exists rep,
        run b3_throttled_s3 ["b1"; "b2"; "b3"; "b4"; "b5"]
          ["b1"; "b2"; "b3"; "b4"; "b5"] 16 1000 false true = Ret rep
        /\ exit_code rep = 0
        /\ map s_bucket (results rep) = ["b1"; "b2"; "b4"; "b5"]
        /\ error_lines rep = [("b3", RuntimeError (retries_message "b3"))]
        /\ success_line rep = (4, 5)
        /\ failed_lines rep = [])
  /\ (forall (s3 : Provider) (targets completion : list string)
             (max_workers n : Z) (d : bool) (b : string) (e : exn)
             (rep : report),
        targets <> [] ->
        run s3 targets completion max_workers n false d = Ret rep ->
        future_result s3 b n d = Raise e ->
        ~ In b (map fst (failed_lines rep))
        /\ (In b completion -> In (b, e) (error_lines rep))).
Proof.
  split; [reflexivity|]. split.
  - eexists. split; [reflexivity|]. repeat split.
  - intros s3 targets completion max_workers n d b e rep.
    apply raised_bucket_not_in_summary.
Qed.

(* ===================================================================== *)
(** * Further properties of the code *)
(* ===================================================================== *)

From Stdlib Require Import Permutation.

(** ** What a drain leaves in the trace *)

(** [w'] is [w] with more events at the end of the trace, all of them
    satisfying [P]. *)
Definition extends (P : event -> Prop) (w w' : world) : Prop :=
  exists events, trace w' = trace w ++ events /\ Forall P events.

(** The events a drain of [bucket] may produce: a page fetch or a quiet
    [delete_objects] call on [bucket], whose batch satisfies [Q], or a sleep
    of at most [cap] seconds. *)
Definition drain_event (bucket : string) (ok : list string -> Prop) (cap : Q)
    (e : event) : Prop :=
  match e with
  | ListObjects b => b = bucket
  | DeleteObjects b objects quiet => b = bucket /\ quiet = true /\ ok objects
  | DeleteBucket _ => False
  | Sleep seconds => (0 <= seconds <= cap)%Q
  end.

(** The events a worker on [bucket] may produce. *)
Definition worker_event (bucket : string) (e : event) : Prop :=
  drain_event bucket (fun _ => True) 5 e \/ e = DeleteBucket bucket.

(** The batches the pages of a listing are cut into, in order. *)
Definition batches_of (pages : list page_fetch) (n : Z) : list (list string) :=
  flat_map (fun p =>
    match p with
    | Page keys => batched keys n
    | PageError _ => []
    end) pages.

Lemma extends_refl (P : event -> Prop) (w : world) : extends P w w.
Proof. exists []. split; [now rewrite app_nil_r | constructor]. Qed.

Lemma extends_trans (P : event -> Prop) (w1 w2 w3 : world) :
  extends P w1 w2 -> extends P w2 w3 -> extends P w1 w3.
Proof.
  intros (e1 & H1 & F1) (e2 & H2 & F2). exists (e1 ++ e2). split.
  - now rewrite H2, H1, app_assoc.
  - apply Forall_app. now split.
Qed.

Lemma extends_weaken (P P' : event -> Prop) (w w' : world) :
  (forall e, P e -> P' e) -> extends P w w' -> extends P' w w'.
Proof.
  intros HP (evs & H & F). exists evs. split; [exact H|].
  eapply Forall_impl; [|exact F]. exact HP.
Qed.

Lemma extends_one (P : event -> Prop) (w w' : world) (e : event) :
  trace w' = trace w ++ [e] -> P e -> extends P w w'.
Proof. intros H He. exists [e]. split; [exact H | now constructor]. Qed.

Lemma delay_nonneg (i : nat) (base cap : Q) :
  (0 <= base)%Q -> (0 <= cap)%Q -> (0 <= delay i base cap)%Q.
Proof.
  intros Hb Hc. unfold delay. rewrite Qred_correct.
  apply Q.min_glb; [|exact Hc].
  apply Qmult_le_0_compat; [|exact Hb].
  change 0%Q with (inject_Z 0). rewrite <- Zle_Qle.
  apply Z.pow_nonneg. lia.
Qed.

Lemma sleep_backoff_inv (P : event -> Prop) (i : nat) (base cap : Q)
    (w w' : world) (r : result unit) :
  (forall d, (0 <= d <= cap)%Q -> P (Sleep d)) ->
  (0 <= base)%Q -> (0 <= cap)%Q ->
  sleep_backoff i base cap w = (r, w') ->
  extends P w w'
  /\ n_paginate w' = n_paginate w
  /\ n_delete_objects w' = n_delete_objects w
  /\ n_delete_bucket w' = n_delete_bucket w.
Proof.
  intros HP Hb Hc. unfold sleep_backoff, backoff.
  destruct (i <? 1024)%nat; intros [= <- <-].
  - split; [|now simpl]. eapply extends_one; [reflexivity|].
    apply HP. split; [now apply delay_nonneg | apply delay_le_cap].
  - split; [apply extends_refl | tauto].
Qed.

(** The batches satisfying [ok] are narrowed to batches satisfying [ok]:
    the keys a response reports as errors form such a batch again. *)
Definition narrows (s3 : Provider) (bucket : string)
    (ok : list string -> Prop) : Prop :=
  forall k objects resp,
    ok objects ->
    delete_objects s3 k bucket objects true = Ret resp ->
    Errors resp <> [] ->
    ok (Errors resp).

Ltac q_nonneg := unfold Qle; simpl; lia.

Section DrainInvariants.
Variable s3 : Provider.
Variable bucket : string.
Variable ok : list string -> Prop.
Hypothesis Hnarrow : narrows s3 bucket ok.

Let P : event -> Prop := drain_event bucket ok 4.

Lemma P_sleep (d : Q) : (0 <= d <= 4)%Q -> P (Sleep d).
Proof. intros H. exact H. Qed.

Lemma call_delete_objects_inv (batch : list string) (w w' : world)
    (r : result response) :
  ok batch ->
  call_delete_objects s3 bucket batch w = (r, w') ->
  r = delete_objects s3 (n_delete_objects w) bucket batch true
  /\ extends P w w'
  /\ n_paginate w' = n_paginate w
  /\ n_delete_bucket w' = n_delete_bucket w
  /\ n_delete_objects w' = S (n_delete_objects w).
Proof.
  intros Hok [= <- <-]. split; [reflexivity|]. split; [|now simpl].
  eapply extends_one; [reflexivity|]. simpl. auto.
Qed.

Lemma delete_attempts_inv (attempts : list nat) :
  forall batch total w r w',
    ok batch ->
    delete_attempts s3 bucket attempts batch total w = (r, w') ->
    extends P w w'
    /\ n_paginate w' = n_paginate w
    /\ n_delete_bucket w' = n_delete_bucket w
    /\ (n_delete_objects w <= n_delete_objects w'
        <= n_delete_objects w + length attempts)%nat
    /\ (forall t, r = Ret (Continue t) \/ r = Ret (ReturnGone t) ->
          total <= t).
Proof.
  induction attempts as [|attempt later IH]; intros batch total w r w' Hok.
  - intros [= <- <-]. split; [apply extends_refl|].
    repeat split; try lia. intros t [H | H]; discriminate.
  - simpl delete_attempts. unfold bind at 1, catch.
    destruct (call_delete_objects s3 bucket batch w) as [rc w1] eqn:Hcall.
    destruct (call_delete_objects_inv _ _ _ _ Hok Hcall)
      as (Hrc & He1 & Hp1 & Hb1 & Ho1).
    simpl length.
    destruct rc as [resp|e].
    + pose proof (Nat2Z.is_nonneg (length (Deleted resp))) as Hlen.
      destruct (Errors resp) as [|k ks] eqn:Herr.
      * intros [= <- <-]. split; [exact He1|]. repeat split; try lia.
        intros t [[= <-] | [=]]. unfold len. lia.
      * unfold bind.
        destruct (sleep_backoff attempt (1 # 4) 4 w1) as [rs w2] eqn:Hs.
        destruct (sleep_backoff_inv P attempt (1 # 4) 4 w1 w2 rs P_sleep
                    ltac:(q_nonneg) ltac:(q_nonneg) Hs)
          as (He2 & Hp2 & Ho2 & Hb2).
        destruct rs as [u|e].
        -- intros Hrec. apply IH in Hrec.
           ++ destruct Hrec as (He3 & Hp3 & Hb3 & Ho3 & Ht3).
              split; [eauto using extends_trans|].
              repeat split; try lia.
              intros t Ht. specialize (Ht3 t Ht). unfold len in Ht3. lia.
           ++ rewrite <- Herr. eapply Hnarrow; eauto.
              rewrite Herr. discriminate.
        -- intros [= <- <-]. split; [eauto using extends_trans|].
           repeat split; try lia. intros t [H | H]; discriminate.
    + assert (Hstop : (Raise e, w1) = (r, w') ->
                extends P w w'
                /\ n_paginate w' = n_paginate w
                /\ n_delete_bucket w' = n_delete_bucket w
                /\ (n_delete_objects w <= n_delete_objects w'
                    <= n_delete_objects w + S (length later))%nat
                /\ (forall t, r = Ret (Continue t) \/ r = Ret (ReturnGone t) ->
                      total <= t)).
      { intros [= <- <-]. split; [exact He1|]. repeat split; try lia.
        intros t [H | H]; discriminate. }
      destruct e as [code| | | | |]; try exact Hstop.
      destruct (is_no_such_bucket code).
      * intros [= <- <-]. split; [exact He1|]. repeat split; try lia.
        intros t [[=] | [= <-]]. lia.
      * unfold bind.
        destruct (sleep_backoff attempt (1 # 2) 4 w1) as [rs w2] eqn:Hs.
        destruct (sleep_backoff_inv P attempt (1 # 2) 4 w1 w2 rs P_sleep
                    ltac:(q_nonneg) ltac:(q_nonneg) Hs)
          as (He2 & Hp2 & Ho2 & Hb2).
        destruct rs as [u|e].
        -- intros Hrec. apply IH in Hrec; [|exact Hok].
           destruct Hrec as (He3 & Hp3 & Hb3 & Ho3 & Ht3).
           split; [eauto using extends_trans|].
           repeat split; try lia. exact Ht3.
        -- intros [= <- <-]. split; [eauto using extends_trans|].
           repeat split; try lia. intros t [H | H]; discriminate.
Qed.

Lemma delete_batches_inv (r : Z) (batches : list (list string)) :
  forall total w res w',
    Forall ok batches ->
    delete_batches s3 bucket r batches total w = (res, w') ->
    extends P w w'
    /\ n_paginate w' = n_paginate w
    /\ n_delete_bucket w' = n_delete_bucket w
    /\ (n_delete_objects w <= n_delete_objects w'
        <= n_delete_objects w + Z.to_nat r * length batches)%nat
    /\ (forall t, res = Ret (Continue t) \/ res = Ret (ReturnGone t) ->
          total <= t).
Proof.
  induction batches as [|b bs IH]; intros total w res w' Hall.
  - intros [= <- <-]. split; [apply extends_refl|].
    repeat split; try lia. intros t [[= <-] | [=]]. lia.
  - inversion Hall as [|? ? Hb Hbs]; subst.
    simpl delete_batches. unfold bind.
    destruct (delete_attempts s3 bucket (range r) b total w) as [ra w1] eqn:Ha.
    destruct (delete_attempts_inv _ _ _ _ _ _ Hb Ha)
      as (He1 & Hp1 & Hb1 & Ho1 & Ht1).
    unfold range in Ho1. rewrite length_seq in Ho1. simpl length.
    destruct ra as [[t1|t1]|e].
    + intros Hrec. apply IH in Hrec; [|exact Hbs].
      destruct Hrec as (He2 & Hp2 & Hb2 & Ho2 & Ht2).
      split; [eauto using extends_trans|]. repeat split; try lia.
      intros t Ht. specialize (Ht2 t Ht). specialize (Ht1 t1 (or_introl eq_refl)).
      lia.
    + intros [= <- <-]. split; [exact He1|]. repeat split; try lia.
      intros t [[=] | [= <-]]. apply (Ht1 t1). now right.
    + intros [= <- <-]. split; [exact He1|]. repeat split; try lia.
      intros t [H | H]; discriminate.
Qed.

Lemma log_inv (e : event) (w w' : world) (r : result unit) :
  P e ->
  log e w = (r, w') ->
  r = Ret tt
  /\ extends P w w'
  /\ n_paginate w' = n_paginate w
  /\ n_delete_bucket w' = n_delete_bucket w
  /\ n_delete_objects w' = n_delete_objects w.
Proof.
  intros He [= <- <-]. split; [reflexivity|]. split; [|now simpl].
  eapply extends_one; [reflexivity | exact He].
Qed.

Lemma drain_pages_inv (n r : Z) (pages : list page_fetch) :
  forall total w res w',
    (forall keys, In (Page keys) pages -> Forall ok (batched keys n)) ->
    drain_pages s3 bucket n r pages total w = (res, w') ->
    extends P w w'
    /\ n_paginate w' = n_paginate w
    /\ n_delete_bucket w' = n_delete_bucket w
    /\ (n_delete_objects w <= n_delete_objects w'
        <= n_delete_objects w + Z.to_nat r * length (batches_of pages n))%nat
    /\ (forall t, res = Ret (Continue t) \/ res = Ret (ReturnGone t) ->
          total <= t).
Proof.
  induction pages as [|p ps IH]; intros total w res w' Hall.
  - intros [= <- <-]. split; [apply extends_refl|].
    repeat split; try lia. intros t [[= <-] | [=]]. lia.
  - simpl drain_pages. unfold bind at 1.
    destruct (log (ListObjects bucket) w) as [rl w0] eqn:Hlog.
    destruct (log_inv _ _ _ _ (eq_refl : P (ListObjects bucket)) Hlog)
      as (-> & He0 & Hp0 & Hb0 & Ho0).
    assert (Hps : forall keys, In (Page keys) ps -> Forall ok (batched keys n))
      by (intros keys Hin; apply Hall; now right).
    unfold batches_of. simpl flat_map. fold (batches_of ps n).
    rewrite length_app.
    destruct p as [keys|e].
    + assert (Hkeys : Forall ok (batched keys n)) by (apply Hall; now left).
      destruct keys as [|k ks].
      * intros Hrec. apply IH in Hrec; [|exact Hps].
        destruct Hrec as (He2 & Hp2 & Hb2 & Ho2 & Ht2).
        split; [eauto using extends_trans|]. repeat split; try lia.
        exact Ht2.
      * unfold bind.
        destruct (delete_batches s3 bucket r (batched (k :: ks) n) total w0)
          as [rb w1] eqn:Hb.
        destruct (delete_batches_inv _ _ _ _ _ _ Hkeys Hb)
          as (He1 & Hp1 & Hb1 & Ho1 & Ht1).
        destruct rb as [[t1|t1]|e].
        -- intros Hrec. apply IH in Hrec; [|exact Hps].
           destruct Hrec as (He2 & Hp2 & Hb2 & Ho2 & Ht2).
           split; [eauto using extends_trans|]. repeat split; try lia.
           intros t Ht. specialize (Ht2 t Ht).
           specialize (Ht1 t1 (or_introl eq_refl)). lia.
        -- intros [= <- <-]. split; [eauto using extends_trans|].
           repeat split; try lia.
           intros t [[=] | [= <-]]. apply (Ht1 t1). now right.
        -- intros [= <- <-]. split; [eauto using extends_trans|].
           repeat split; try lia. intros t [H | H]; discriminate.
    + intros [= <- <-]. split; [exact He0|]. repeat split; try lia.
      intros t [H | H]; discriminate.
Qed.

Lemma empty_bucket_inv (n r : Z) (w w' : world) (res : result summary) :
  (forall keys, In (Page keys) (list_objects_v2 s3 (n_paginate w) bucket) ->
     Forall ok (batched keys n)) ->
  empty_bucket s3 bucket n r w = (res, w') ->
  extends P w w'
  /\ n_paginate w' = S (n_paginate w)
  /\ n_delete_bucket w' = n_delete_bucket w
  /\ (n_delete_objects w <= n_delete_objects w'
      <= n_delete_objects w
         + Z.to_nat r
           * length (batches_of (list_objects_v2 s3 (n_paginate w) bucket) n))%nat
  /\ (forall s, res = Ret s ->
        s_bucket s = bucket /\ 0 <= s_deleted s /\ s_final s = None
        /\ (s_status s = emptied \/ s_status s = gone)).
Proof.
  intros Hall. unfold empty_bucket, bind at 1, call_paginate. unfold bind.
  match goal with
  | |- context [drain_pages _ _ _ _ ?ps 0 ?w0] =>
      destruct (drain_pages s3 bucket n r ps 0 w0) as [rd w1] eqn:Hd
  end.
  apply drain_pages_inv in Hd; [|exact Hall].
  destruct Hd as ((evs & He & HF) & Hp & Hb & Ho & Ht). simpl in *.
  assert (Hext : extends P w w1) by (exists evs; now split).
  destruct rd as [[t|t]|e]; intros [= <- <-];
    (split; [exact Hext|]); (split; [lia|]); (split; [lia|]);
    (split; [lia|]); intros s Hs; [| |discriminate];
    injection Hs as <-; simpl; (split; [reflexivity|]);
    (split; [apply Ht; auto|]); auto.
Qed.

End DrainInvariants.

Lemma batched_from_nonempty {A : Type} (n : Z) (items : list A) :
  forall batch, Forall (fun g => g <> []) (batched_from n batch items).
Proof.
  induction items as [|x rest IH]; intros batch; simpl.
  - destruct batch; constructor; [discriminate | constructor].
  - destruct (_ >=? n); [constructor|]; try apply IH.
    now destruct batch.
Qed.

Lemma narrows_nonempty (s3 : Provider) (bucket : string) :
  narrows s3 bucket (fun objects => objects <> []).
Proof. intros k objects resp _ _ Herr. exact Herr. Qed.

(** ** What removing a bucket leaves in the trace *)

Section RemoveInvariants.
Variable s3 : Provider.
Variable bucket : string.

Let R : event -> Prop := worker_event bucket.

Lemma R_sleep (d : Q) : (0 <= d <= 5)%Q -> R (Sleep d).
Proof. intros H. left. exact H. Qed.

Lemma drain_event_worker (e : event) :
  drain_event bucket (fun objects => objects <> []) 4 e -> R e.
Proof.
  intros H. left. destruct e as [b|b objects q|b|d]; simpl in *; try tauto.
  destruct H as [H0 H4]. split; [exact H0|].
  eapply Qle_trans; [exact H4 | q_nonneg].
Qed.

Lemma call_delete_bucket_inv (w w' : world) (r : result unit) :
  call_delete_bucket s3 bucket w = (r, w') ->
  extends R w w'
  /\ n_paginate w' = n_paginate w
  /\ n_delete_objects w' = n_delete_objects w
  /\ n_delete_bucket w' = S (n_delete_bucket w).
Proof.
  intros [= <- <-]. split; [|now simpl].
  eapply extends_one; [reflexivity|]. now right.
Qed.

Lemma delete_bucket_attempts_inv (attempts : list nat) :
  forall w r w',
    delete_bucket_attempts s3 bucket attempts w = (r, w') ->
    extends R w w'
    /\ n_paginate w' = n_paginate w
    /\ n_delete_objects w' = n_delete_objects w
    /\ (n_delete_bucket w <= n_delete_bucket w'
        <= n_delete_bucket w + length attempts)%nat
    /\ (forall s, r = Ret (Some s) -> s = deleted \/ s = gone).
Proof.
  induction attempts as [|i later IH]; intros w r w'.
  - intros [= <- <-]. split; [apply extends_refl|].
    repeat split; try lia. discriminate.
  - simpl delete_bucket_attempts. unfold bind at 1, catch.
    destruct (call_delete_bucket s3 bucket w) as [rc w1] eqn:Hcall.
    destruct (call_delete_bucket_inv _ _ _ Hcall) as (He1 & Hp1 & Ho1 & Hb1).
    simpl length.
    destruct rc as [u|e].
    + intros [= <- <-]. split; [exact He1|]. repeat split; try lia.
      intros s [= <-]. now left.
    + assert (Hstop : (Raise e, w1) = (r, w') ->
                extends R w w'
                /\ n_paginate w' = n_paginate w
                /\ n_delete_objects w' = n_delete_objects w
                /\ (n_delete_bucket w <= n_delete_bucket w'
                    <= n_delete_bucket w + S (length later))%nat
                /\ (forall s, r = Ret (Some s) -> s = deleted \/ s = gone)).
      { intros [= <- <-]. split; [exact He1|]. repeat split; try lia.
        discriminate. }
      destruct e as [code| | | | |]; try exact Hstop.
      destruct (is_no_such_bucket code).
      * intros [= <- <-]. split; [exact He1|]. repeat split; try lia.
        intros s [= <-]. now right.
      * unfold bind.
        destruct (sleep_backoff i (1 # 2) 5 w1) as [rs w2] eqn:Hs.
        destruct (sleep_backoff_inv R i (1 # 2) 5 w1 w2 rs R_sleep
                    ltac:(q_nonneg) ltac:(q_nonneg) Hs)
          as (He2 & Hp2 & Ho2 & Hb2).
        destruct rs as [u|e].
        -- intros Hrec. apply IH in Hrec.
           destruct Hrec as (He3 & Hp3 & Ho3 & Hb3 & Hs3).
           split; [eauto using extends_trans|].
           repeat split; try lia. exact Hs3.
        -- intros [= <- <-]. split; [eauto using extends_trans|].
           repeat split; try lia. discriminate.
Qed.

Lemma empty_bucket_worker_inv (n r : Z) (w w' : world)
    (res : result summary) :
  empty_bucket s3 bucket n r w = (res, w') ->
  extends R w w'
  /\ n_paginate w' = S (n_paginate w)
  /\ n_delete_bucket w' = n_delete_bucket w.
Proof.
  intros Hrun.
  apply (empty_bucket_inv s3 bucket _ (narrows_nonempty s3 bucket)) in Hrun.
  - destruct Hrun as (He & Hp & Hb & _).
    split; [|now split].
    eapply extends_weaken; [|exact He]. exact drain_event_worker.
  - intros keys _. apply batched_from_nonempty.
Qed.

Lemma fallback_pass_inv (w w' : world) (r : result unit) :
  fallback_pass s3 bucket w = (r, w') ->
  extends R w w'
  /\ n_paginate w' = S (n_paginate w)
  /\ (n_delete_bucket w <= n_delete_bucket w' <= S (n_delete_bucket w))%nat.
Proof.
  unfold fallback_pass, bind.
  destruct (empty_bucket s3 bucket 1000 5 w) as [re w1] eqn:Hd.
  destruct (empty_bucket_worker_inv _ _ _ _ _ Hd) as (He1 & Hp1 & Hb1).
  destruct re as [s|e].
  - intros Hcall. apply call_delete_bucket_inv in Hcall.
    destruct Hcall as (He2 & Hp2 & _ & Hb2).
    split; [eauto using extends_trans|]. split; lia.
  - intros [= <- <-]. split; [exact He1|]. split; lia.
Qed.

Lemma delete_bucket_inv (retries : Z) (w w' : world) (r : result status) :
  delete_bucket s3 bucket retries w = (r, w') ->
  extends R w w'
  /\ (n_paginate w <= n_paginate w' <= S (n_paginate w))%nat
  /\ (n_delete_bucket w <= n_delete_bucket w'
      <= n_delete_bucket w + Z.to_nat retries + 1)%nat
  /\ (forall s, r = Ret s -> s = deleted \/ s = gone \/ s = failed).
Proof.
  unfold delete_bucket, bind at 1.
  destruct (delete_bucket_attempts s3 bucket (range retries) w)
    as [ra w1] eqn:Ha.
  destruct (delete_bucket_attempts_inv _ _ _ _ Ha)
    as (He1 & Hp1 & _ & Hb1 & Hs1).
  unfold range in Hb1. rewrite length_seq in Hb1.
  destruct ra as [[s|]|e].
  - intros [= <- <-]. split; [exact He1|]. repeat split; try lia.
    intros s' [= <-]. destruct (Hs1 s eq_refl); tauto.
  - unfold bind, catch.
    destruct (fallback_pass s3 bucket w1) as [rf w2] eqn:Hf.
    destruct (fallback_pass_inv _ _ _ Hf) as (He2 & Hp2 & Hb2).
    destruct rf as [u|e]; intros [= <- <-];
      (split; [eauto using extends_trans|]); repeat split; try lia;
      intros s [= <-]; tauto.
  - intros [= <- <-]. split; [exact He1|]. repeat split; try lia.
    discriminate.
Qed.

End RemoveInvariants.

Lemma worker_inv (s3 : Provider) (bucket : string) (n : Z) (d : bool)
    (w w' : world) (r : result summary) :
  worker s3 bucket n d w = (r, w') ->
  extends (worker_event bucket) w w'
  /\ (n_paginate w < n_paginate w' <= n_paginate w + 2)%nat
  /\ (n_delete_bucket w <= n_delete_bucket w' <= n_delete_bucket w + 6)%nat
  /\ (d = false ->
      n_delete_bucket w' = n_delete_bucket w
      /\ n_paginate w' = S (n_paginate w)
      /\ extends (drain_event bucket (fun objects => objects <> []) 4) w w')
  /\ (forall s, r = Ret s ->
        s_bucket s = bucket /\ 0 <= s_deleted s
        /\ (s_status s = emptied \/ s_status s = gone)
        /\ (if d
            then s_final s = Some deleted \/ s_final s = Some gone
                 \/ s_final s = Some failed
            else s_final s = Some emptied)).
Proof.
  unfold worker, bind at 1.
  destruct (empty_bucket s3 bucket n 5 w) as [re w1] eqn:Hd.
  pose proof Hd as Hd'.
  apply (empty_bucket_inv s3 bucket _ (narrows_nonempty s3 bucket)) in Hd';
    [|intros keys _; apply batched_from_nonempty].
  destruct Hd' as (Hdrain & Hp1 & Hb1 & _ & Hshape).
  assert (He1 : extends (worker_event bucket) w w1).
  { eapply extends_weaken; [|exact Hdrain]. apply drain_event_worker. }
  destruct re as [s|e].
  - destruct (Hshape s eq_refl) as (Hsb & Hsd & _ & Hss).
    destruct d.
    + unfold bind.
      destruct (delete_bucket s3 bucket 5 w1) as [rf w2] eqn:Hr.
      destruct (delete_bucket_inv _ _ _ _ _ _ Hr) as (He2 & Hp2 & Hb2 & Hf).
      change (Z.to_nat 5) with 5%nat in Hb2.
      destruct rf as [f|e]; intros [= <- <-];
        (split; [eauto using extends_trans|]); (split; [lia|]);
        (split; [lia|]); (split; [discriminate|]).
      * intros s' [= <-]. simpl. repeat split; auto.
        destruct (Hf f eq_refl) as [-> | [-> | ->]]; tauto.
      * discriminate.
    + intros [= <- <-]. split; [exact He1|]. split; [lia|]. split; [lia|].
      split; [intros _; repeat split; auto|].
      intros s' [= <-]. simpl. repeat split; auto.
  - intros [= <- <-]. split; [exact He1|]. split; [lia|]. split; [lia|].
    split; [intros _; repeat split; auto | discriminate].
Qed.

(** X1.  However the service answers and however the drain ends,
    [empty_bucket] opens exactly one listing, issues nothing but page
    fetches and quiet [delete_objects] calls on its own bucket, never with
    an empty list of keys, sleeps between 0 and 4 seconds at a time, and
    makes no [delete_bucket] call. *)
Theorem drain_touches_only_its_bucket (s3 : Provider) (bucket : string)
    (batch_size max_delete_retries : Z) (w : world) :
  extends (drain_event bucket (fun objects => objects <> []) 4) w
    (snd (empty_bucket s3 bucket batch_size max_delete_retries w))
  /\ n_paginate (snd (empty_bucket s3 bucket batch_size max_delete_retries w))
     = S (n_paginate w)
  /\ n_delete_bucket (snd (empty_bucket s3 bucket batch_size max_delete_retries w))
     = n_delete_bucket w.
Proof.
  destruct (empty_bucket s3 bucket batch_size max_delete_retries w)
    as [r w'] eqn:Hrun.
  apply (empty_bucket_inv s3 bucket _ (narrows_nonempty s3 bucket)) in Hrun.
  - simpl. tauto.
  - intros keys _. apply batched_from_nonempty.
Qed.

(** ** The delete calls of a drain, batch by batch *)





Section DrainCalls.
Variable s3 : Provider.
Variable bucket : string.






End DrainCalls.


(** X3.  With a positive [batch_size], against a service that reports no
    more failed keys than it was sent, no [delete_objects] call of a drain
    carries more than [batch_size] keys, retries included. *)
Theorem drain_respects_batch_size (s3 : Provider) (bucket : string)
    (batch_size max_delete_retries : Z) (w : world) :
  0 < batch_size ->
  (forall k objects resp,
      delete_objects s3 k bucket objects true = Ret resp ->
      (length (Errors resp) <= length objects)%nat) ->
  extends
    (drain_event bucket (fun objects => 0 < len objects <= batch_size) 4) w
    (snd (empty_bucket s3 bucket batch_size max_delete_retries w)).
Proof.
  intros Hn Hservice.
  destruct (empty_bucket s3 bucket batch_size max_delete_retries w)
    as [r w'] eqn:Hrun.
  apply (empty_bucket_inv s3 bucket
           (fun objects => 0 < len objects <= batch_size)) in Hrun.
  - simpl. tauto.
  - intros k objects resp Hok Hcall Herr.
    specialize (Hservice k objects resp Hcall). unfold len in *.
    destruct (Errors resp); [contradiction|]. simpl length in *. lia.
  - intros keys _. unfold batched, len.
    apply batched_from_group_size; simpl; lia.
Qed.

(** The first call reports the first key it was sent as failed; later calls
    succeed. *)
Definition first_key_fails_s3 : Provider :=
  {| list_objects_v2 := fun _ _ => [Page ["k1"; "k2"; "k3"]];
     delete_objects := fun k _ objects quiet =>
       match k with
       | O => Ret {| Deleted := []; Errors := firstn 1 objects |}
       | S _ => Ret (ok_response quiet objects)
       end;
     s3_delete_bucket := fun _ _ => Ret tt |}.

Lemma drain_respects_batch_size_witness :
  extends (drain_event "b" (fun objects => 0 < len objects <= 2) 4) init_world
    (snd (empty_bucket first_key_fails_s3 "b" 2 5 init_world))
  /\ delete_calls (trace (snd (empty_bucket first_key_fails_s3 "b" 2 5 init_world)))
     = [["k1"; "k2"]; ["k1"]; ["k3"]].
Proof.
  split; [|reflexivity].
  apply (drain_respects_batch_size first_key_fails_s3 "b" 2 5 init_world).
  - lia.
  - intros [|k] objects resp; simpl; intros [= <-]; simpl.
    + destruct objects; simpl; lia.
    + lia.
Defined.

(** X4.  The events of a worker are page fetches, quiet [delete_objects]
    calls and [delete_bucket] calls on its own bucket and sleeps of at most
    5 seconds; it opens at most two listings and makes at most six
    [delete_bucket] calls.  A summary it returns names its bucket, has a
    non-negative [deleted] count, a status emptied or gone, and a final
    status deleted, gone or failed with [--delete-bucket], emptied
    without. *)
Theorem worker_frame (s3 : Provider) (bucket : string) (batch_size : Z)
    (do_delete_bucket : bool) (w : world) :
  extends (worker_event bucket) w
    (snd (worker s3 bucket batch_size do_delete_bucket w))
  /\ (n_paginate w
      < n_paginate (snd (worker s3 bucket batch_size do_delete_bucket w))
      <= n_paginate w + 2)%nat
  /\ (n_delete_bucket (snd (worker s3 bucket batch_size do_delete_bucket w))
      <= n_delete_bucket w + 6)%nat
  /\ match fst (worker s3 bucket batch_size do_delete_bucket w) with
     | Ret s =>
         s_bucket s = bucket /\ 0 <= s_deleted s
         /\ (s_status s = emptied \/ s_status s = gone)
         /\ (if do_delete_bucket
             then s_final s = Some deleted \/ s_final s = Some gone
                  \/ s_final s = Some failed
             else s_final s = Some emptied)
     | Raise _ => True
     end.
Proof.
  destruct (worker s3 bucket batch_size do_delete_bucket w) as [r w'] eqn:Hrun.
  apply worker_inv in Hrun. destruct Hrun as (He & Hp & Hb & _ & Hs).
  simpl. split; [exact He|]. split; [exact Hp|]. split; [lia|].
  destruct r as [s|e]; [now apply Hs | exact I].
Qed.

(** X5.  Without [--delete-bucket] a worker never calls [delete_bucket]:
    whatever happens, the bucket is kept. *)
Theorem worker_keeps_bucket (s3 : Provider) (bucket : string)
    (batch_size : Z) (w : world) :
  n_delete_bucket (snd (worker s3 bucket batch_size false w))
  = n_delete_bucket w
  /\ extends (drain_event bucket (fun objects => objects <> []) 4) w
       (snd (worker s3 bucket batch_size false w)).
Proof.
  destruct (worker s3 bucket batch_size false w) as [r w'] eqn:Hrun.
  apply worker_inv in Hrun. destruct Hrun as (_ & _ & _ & Hkeep & _).
  simpl. destruct (Hkeep eq_refl) as (H1 & _ & H3). now split.
Qed.

(** X6.  [delete_bucket] makes at most [retries + 1] [delete_bucket] calls
    and opens at most one listing, and a status it returns is deleted, gone
    or failed, whatever the service answers. *)
Theorem delete_bucket_call_budget (s3 : Provider) (bucket : string)
    (retries : Z) (w : world) :
  (n_delete_bucket (snd (delete_bucket s3 bucket retries w))
   <= n_delete_bucket w + Z.to_nat retries + 1)%nat
  /\ (n_paginate (snd (delete_bucket s3 bucket retries w))
      <= S (n_paginate w))%nat
  /\ extends (worker_event bucket) w (snd (delete_bucket s3 bucket retries w))
  /\ match fst (delete_bucket s3 bucket retries w) with
     | Ret s => s = deleted \/ s = gone \/ s = failed
     | Raise _ => True
     end.
Proof.
  destruct (delete_bucket s3 bucket retries w) as [r w'] eqn:Hrun.
  apply delete_bucket_inv in Hrun. destruct Hrun as (He & Hp & Hb & Hs).
  simpl. split; [lia|]. split; [lia|]. split; [exact He|].
  destruct r as [s|e]; [now apply Hs | exact I].
Qed.

(** ** Backoff *)

(** X7.  For a non-negative base the sleeps of successive attempts never
    decrease and never exceed the cap, and once [2^i * base] has reached the
    cap every later sleep is the cap; attempts below 1024 always get a
    sleep. *)
Theorem backoff_monotone_capped (i j : nat) (base cap : Q) :
  (0 <= base)%Q -> (i <= j)%nat -> (j < 1024)%nat ->
  backoff i base cap = Ret (delay i base cap)
  /\ backoff j base cap = Ret (delay j base cap)
  /\ (delay i base cap <= delay j base cap)%Q
  /\ (delay j base cap <= cap)%Q
  /\ ((cap <= inject_Z (2 ^ Z.of_nat i) * base)%Q ->
      (delay j base cap == cap)%Q).
Proof.
  intros Hbase Hij Hj. unfold backoff.
  replace (i <? 1024)%nat with true by (symmetry; apply Nat.ltb_lt; lia).
  replace (j <? 1024)%nat with true by (symmetry; apply Nat.ltb_lt; lia).
  split; [reflexivity|]. split; [reflexivity|].
  split; [now apply delay_monotone|]. split; [apply delay_le_cap|].
  intros Hcap. apply delay_flat. eapply Qle_trans; [exact Hcap|].
  apply Qmult_le_compat_r; [|exact Hbase].
  rewrite <- Zle_Qle. apply Z.pow_le_mono_r; lia.
Qed.

Lemma backoff_monotone_capped_witness :
  backoff 2 (1 # 4) 4 = Ret 1%Q
  /\ backoff 5 (1 # 4) 4 = Ret 4%Q
  /\ (delay 2 (1 # 4) 4 <= delay 5 (1 # 4) 4)%Q
  /\ (delay 5 (1 # 4) 4 <= 4)%Q.
Proof.
  destruct (backoff_monotone_capped 2 5 (1 # 4) 4) as (H1 & H2 & H3 & H4 & _).
  - q_nonneg.
  - lia.
  - lia.
  - split; [exact H1|]. split; [exact H2|]. split; [exact H3 | exact H4].
Defined.

(** X8.  With more than 1024 retries, when the first 1025 [delete_bucket]
    calls all fail with a client error other than not-found,
    [delete_bucket] raises [OverflowError] at the sleep of attempt 1024: it
    returns no status and makes no fallback pass. *)
Theorem delete_bucket_overflows (s3 : Provider) (bucket : string)
    (retries : Z) (w : world) :
  1024 < retries ->
  (forall k, (k <= 1024)%nat -> transient (answer_at s3 bucket w k) = true) ->
  delete_bucket s3 bucket retries w
  = (Raise OverflowError,
     after_bucket_calls w 1025
       (retry_trace bucket 0 1024 ++ [DeleteBucket bucket])).
Proof.
  intros Hr Htr. unfold delete_bucket, bind at 1.
  rewrite (range_split retries 1024) by lia.
  rewrite delete_bucket_attempts_app.
  rewrite attempts_all_transient by (try lia; intros k Hk; apply Htr; lia).
  cbn [delete_bucket_attempts]. unfold bind at 1, catch, call_delete_bucket.
  pose proof (Htr 1024%nat (Nat.le_refl _)) as Hlast.
  unfold answer_at in Hlast.
  change (n_delete_bucket
            (after_bucket_calls w 1024 (retry_trace bucket 0 1024)))
    with (n_delete_bucket w + 1024)%nat.
  destruct (s3_delete_bucket s3 (n_delete_bucket w + 1024) bucket) as [u|e];
    [discriminate|].
  destruct e as [code| | | | |]; try discriminate.
  cbn [transient] in Hlast. apply negb_true_iff in Hlast. rewrite Hlast.
  unfold bind at 1, sleep_backoff, backoff.
  replace (1024 <? 1024)%nat with false
    by (symmetry; apply Nat.ltb_ge; apply Nat.le_refl).
  unfold raise, after_bucket_calls. cbn [n_paginate n_delete_objects
    n_delete_bucket trace]. f_equal. f_equal; [lia|].
  now rewrite app_assoc.
Qed.

Lemma delete_bucket_overflows_witness :
  fst (delete_bucket (refusing_s3 1025 (Ret tt)) "b" 1025 init_world)
  = Raise OverflowError.
Proof.
  rewrite (delete_bucket_overflows (refusing_s3 1025 (Ret tt)) "b" 1025
             init_world).
  - reflexivity.
  - lia.
  - intros k Hk. unfold answer_at, refusing_s3.
    cbn [s3_delete_bucket n_delete_bucket init_world].
    replace (0 + k <? 1025)%nat with true
      by (symmetry; apply Nat.ltb_lt; lia).
    reflexivity.
Defined.

(** ** A drain that meets no failure *)

Definition is_page (p : page_fetch) : Prop :=
  match p with
  | Page _ => True
  | PageError _ => False
  end.

(** The events of one page when every call succeeds: the page fetch, then
    one [delete_objects] call per batch. *)
Definition page_events (bucket : string) (n : Z) (p : page_fetch)
    : list event :=
  match p with
  | Page keys =>
      ListObjects bucket
      :: map (fun batch => DeleteObjects bucket batch true) (batched keys n)
  | PageError _ => [ListObjects bucket]
  end.

(** The number of keys the responses list as deleted when the [batches] are
    sent one after the other from the [k]-th call on. *)
Fixpoint counted (s3 : Provider) (bucket : string) (k : nat)
    (batches : list (list string)) : Z :=
  match batches with
  | [] => 0
  | batch :: later =>
      match delete_objects s3 k bucket batch true with
      | Ret resp => len (Deleted resp)
      | Raise _ => 0
      end + counted s3 bucket (S k) later
  end.

(** Every quiet [delete_objects] call on [bucket] succeeds for all keys. *)
Definition always_succeeds (s3 : Provider) (bucket : string) : Prop :=
  forall k objects,
    exists resp,
      delete_objects s3 k bucket objects true = Ret resp /\ Errors resp = [].

Section CleanDrain.
Variable s3 : Provider.
Variable bucket : string.
Hypothesis Hclean : always_succeeds s3 bucket.

Lemma delete_batches_clean (r : Z) (batches : list (list string)) :
  0 < r ->
  forall total w,
    delete_batches s3 bucket r batches total w
    = (Ret (Continue (total + counted s3 bucket (n_delete_objects w) batches)),
       {| n_paginate := n_paginate w;
          n_delete_objects := n_delete_objects w + length batches;
          n_delete_bucket := n_delete_bucket w;
          trace := trace w
                   ++ map (fun b => DeleteObjects bucket b true) batches |}).
Proof.
  intros Hr.
  assert (Hrange : range r = 0%nat :: seq 1 (Z.to_nat r - 1)).
  { unfold range. replace (Z.to_nat r) with (S (Z.to_nat r - 1)) at 1 by lia.
    reflexivity. }
  induction batches as [|b bs IH]; intros total w.
  - cbn [delete_batches counted length map]. unfold ret.
    destruct w; simpl. now rewrite Z.add_0_r, Nat.add_0_r, app_nil_r.
  - cbn [delete_batches]. unfold bind at 1. rewrite Hrange.
    cbn [delete_attempts]. unfold bind at 1, catch, call_delete_objects.
    cbn [counted].
    destruct (Hclean (n_delete_objects w) b) as (resp & -> & ->).
    unfold ret at 1. rewrite IH.
    cbn [n_paginate n_delete_objects n_delete_bucket trace length map].
    rewrite Z.add_assoc, <- app_assoc.
    replace (S (n_delete_objects w) + length bs)%nat
      with (n_delete_objects w + S (length bs))%nat by lia.
    reflexivity.
Qed.

Lemma drain_pages_clean (n r : Z) (pages : list page_fetch) :
  0 < r -> Forall is_page pages ->
  forall total w,
    drain_pages s3 bucket n r pages total w
    = (Ret (Continue
              (total + counted s3 bucket (n_delete_objects w)
                         (batches_of pages n))),
       {| n_paginate := n_paginate w;
          n_delete_objects := n_delete_objects w + length (batches_of pages n);
          n_delete_bucket := n_delete_bucket w;
          trace := trace w ++ flat_map (page_events bucket n) pages |}).
Proof.
  intros Hr Hpages. induction Hpages as [|p ps Hp _ IH]; intros total w.
  - cbn. unfold ret. destruct w; simpl.
    now rewrite Z.add_0_r, Nat.add_0_r, app_nil_r.
  - destruct p as [keys|e]; [|contradiction].
    assert (Hcount : forall k bs1 bs2,
      counted s3 bucket k (bs1 ++ bs2)
      = counted s3 bucket k bs1 + counted s3 bucket (k + length bs1) bs2).
    { intros k bs1. revert k. induction bs1 as [|b bs1 IHb]; intros k bs2.
      - cbn. now rewrite Nat.add_0_r.
      - cbn [app counted length]. rewrite IHb.
        replace (S k + length bs1)%nat with (k + S (length bs1))%nat by lia.
        lia. }
    cbn [drain_pages]. unfold bind at 1, log.
    unfold batches_of. cbn [flat_map]. fold (batches_of ps n).
    rewrite length_app, Hcount.
    destruct keys as [|k ks].
    + rewrite IH. cbn [batched batched_from page_events map app length
        counted n_paginate n_delete_objects n_delete_bucket trace].
      rewrite Nat.add_0_r, Z.add_0_l, <- app_assoc. reflexivity.
    + unfold bind at 1. rewrite delete_batches_clean by exact Hr.
      rewrite IH.
      cbn [page_events n_paginate n_delete_objects n_delete_bucket trace].
      rewrite Z.add_assoc, Nat.add_assoc, <- !app_assoc. reflexivity.
Qed.

End CleanDrain.

(** X9.  When the listing raises nothing and every [delete_objects] call
    succeeds for all its keys, a drain with at least one attempt per batch
    returns status emptied after exactly one call per batch, in page and
    batch order, without any sleep: the trace is the page fetches, each
    followed by the batches [batched] cuts the page into; [deleted] is the
    number of keys the responses list. *)
Theorem clean_drain_trace (s3 : Provider) (bucket : string)
    (batch_size max_delete_retries : Z) (w : world) :
  always_succeeds s3 bucket ->
  0 < max_delete_retries ->
  Forall is_page (list_objects_v2 s3 (n_paginate w) bucket) ->
  empty_bucket s3 bucket batch_size max_delete_retries w
  = (Ret {| s_bucket := bucket;
            s_deleted :=
              counted s3 bucket (n_delete_objects w)
                (batches_of (list_objects_v2 s3 (n_paginate w) bucket)
                   batch_size);
            s_status := emptied;
            s_final := None |},
     {| n_paginate := S (n_paginate w);
        n_delete_objects :=
          n_delete_objects w
          + length (batches_of (list_objects_v2 s3 (n_paginate w) bucket)
                      batch_size);
        n_delete_bucket := n_delete_bucket w;
        trace :=
          trace w
          ++ flat_map (page_events bucket batch_size)
               (list_objects_v2 s3 (n_paginate w) bucket) |}).
Proof.
  intros Hclean Hr Hpages. unfold empty_bucket, bind at 1, call_paginate.
  unfold bind at 1. rewrite drain_pages_clean by assumption.
  reflexivity.
Qed.

(** Two pages, the second one empty, against a service that lists the
    deleted keys. *)
Definition two_pages_s3 : Provider :=
  {| list_objects_v2 := fun _ _ => [Page ["k1"; "k2"; "k3"]; Page []];
     delete_objects := fun _ _ objects _ =>
       Ret {| Deleted := objects; Errors := [] |};
     s3_delete_bucket := fun _ _ => Ret tt |}.

Lemma clean_drain_trace_witness :
  empty_bucket two_pages_s3 "b" 2 5 init_world
  = (Ret {| s_bucket := "b"; s_deleted := 3; s_status := emptied;
            s_final := None |},
     {| n_paginate := 1; n_delete_objects := 2; n_delete_bucket := 0;
        trace := [ListObjects "b"; DeleteObjects "b" ["k1"; "k2"] true;
                  DeleteObjects "b" ["k3"] true; ListObjects "b"] |}).
Proof.
  rewrite (clean_drain_trace two_pages_s3 "b" 2 5 init_world).
  - reflexivity.
  - intros k objects. eexists. split; reflexivity.
  - lia.
  - repeat constructor.
Defined.

(** ** A drain that ends early *)

(** What [empty_bucket] makes of the way the attempts on a batch end, when
    they do not end with the batch done. *)
Definition early_exit (bucket : string) (r : result flow)
    : option (result summary) :=
  match r with
  | Ret (Continue _) => None
  | Ret (ReturnGone total_deleted) =>
      Some (Ret {| s_bucket := bucket; s_deleted := total_deleted;
                   s_status := gone; s_final := None |})
  | Raise e => Some (Raise e)
  end.

(** X10.  Once the attempts on a batch end with the not-found return or
    with an exception, the drain ends there: the batches and pages that
    follow are not touched (the world is the one the attempts left), and the
    result is the gone summary with the total counted so far, or the
    exception. *)
Theorem drain_ends_at_early_exit (s3 : Provider) (bucket : string)
    (batch_size max_delete_retries : Z) (w : world)
    (pages1 pages2 : list page_fetch) (keys : list string)
    (batches1 batches2 : list (list string)) (batch : list string)
    (t1 t2 : Z) (w1 w2 w3 : world) (r : result flow)
    (out : result summary) :
  list_objects_v2 s3 (n_paginate w) bucket = pages1 ++ Page keys :: pages2 ->
  batched keys batch_size = batches1 ++ batch :: batches2 ->
  drain_pages s3 bucket batch_size max_delete_retries pages1 0
    (snd (call_paginate s3 bucket w)) = (Ret (Continue t1), w1) ->
  delete_batches s3 bucket max_delete_retries batches1 t1
    (snd (log (ListObjects bucket) w1)) = (Ret (Continue t2), w2) ->
  delete_attempts s3 bucket (range max_delete_retries) batch t2 w2 = (r, w3) ->
  early_exit bucket r = Some out ->
  empty_bucket s3 bucket batch_size max_delete_retries w = (out, w3).
Proof.
  intros Hlist Hbatched Hpages Hbatches Hattempts Hexit.
  unfold empty_bucket, bind at 1.
  change (call_paginate s3 bucket w)
    with (Ret (list_objects_v2 s3 (n_paginate w) bucket),
          snd (call_paginate s3 bucket w)).
  cbv iota. rewrite Hlist. unfold bind at 1.
  rewrite drain_pages_app, Hpages.
  destruct keys as [|k ks]; [now destruct batches1|].
  simpl drain_pages. unfold bind at 1.
  change (log (ListObjects bucket) w1)
    with (Ret tt, snd (log (ListObjects bucket) w1)).
  cbv iota. unfold bind at 1.
  rewrite Hbatched, delete_batches_app, Hbatches.
  simpl delete_batches. unfold bind at 1. rewrite Hattempts.
  destruct r as [[t|t]|e]; simpl in Hexit; [discriminate| |];
    injection Hexit as <-; reflexivity.
Qed.

(** Three keys in one page, batches of two; the first [delete_objects] call
    succeeds, the second is throttled, the third finds the bucket gone. *)
Definition vanishing_s3 : Provider :=
  {| list_objects_v2 := fun _ _ => [Page ["k1"; "k2"; "k3"]; Page ["k4"]];
     delete_objects := fun k _ objects _ =>
       match k with
       | 0%nat => Ret {| Deleted := objects; Errors := [] |}
       | 1%nat => Raise (ClientError (Some "SlowDown"))
       | _ => Raise (ClientError (Some "NoSuchBucket"))
       end;
     s3_delete_bucket := fun _ _ => Ret tt |}.

Lemma drain_ends_at_early_exit_witness :
  empty_bucket vanishing_s3 "b" 2 5 init_world
  = (Ret {| s_bucket := "b"; s_deleted := 2; s_status := gone;
            s_final := None |},
     {| n_paginate := 1; n_delete_objects := 3; n_delete_bucket := 0;
        trace := [ListObjects "b"; DeleteObjects "b" ["k1"; "k2"] true;
                  DeleteObjects "b" ["k3"] true; Sleep (1 # 2);
                  DeleteObjects "b" ["k3"] true] |}).
Proof.
  eapply (drain_ends_at_early_exit vanishing_s3 "b" 2 5 init_world
            [] [Page ["k4"]] ["k1"; "k2"; "k3"] [["k1"; "k2"]] [] ["k3"]);
    reflexivity.
Defined.

(** ** The scheduler's bookkeeping *)

Section Bookkeeping.
Variable s3 : Provider.
Variable batch_size : Z.
Variable do_delete_bucket : bool.

Let outcome (b : string) : result summary :=
  future_result s3 b batch_size do_delete_bucket.

Lemma collect_results (completed : list string) :
  fst (collect s3 batch_size do_delete_bucket completed)
  = flat_map (fun b => match outcome b with Ret r => [r] | Raise _ => [] end)
      completed.
Proof.
  induction completed as [|b later IH]; [reflexivity|].
  cbn [collect flat_map].
  destruct (collect s3 batch_size do_delete_bucket later) as [res errs].
  simpl in IH. subst res. unfold outcome.
  now destruct (future_result s3 b batch_size do_delete_bucket).
Qed.

Lemma collect_errors (completed : list string) :
  snd (collect s3 batch_size do_delete_bucket completed)
  = flat_map (fun b => match outcome b with
                       | Ret _ => []
                       | Raise e => [(b, e)]
                       end) completed.
Proof.
  induction completed as [|b later IH]; [reflexivity|].
  cbn [collect flat_map].
  destruct (collect s3 batch_size do_delete_bucket later) as [res errs].
  simpl in IH. subst errs. unfold outcome.
  now destruct (future_result s3 b batch_size do_delete_bucket).
Qed.

Lemma collect_lengths (completed : list string) :
  (length (fst (collect s3 batch_size do_delete_bucket completed))
   + length (snd (collect s3 batch_size do_delete_bucket completed))
   = length completed)%nat.
Proof.
  rewrite collect_results, collect_errors.
  induction completed as [|b later IH]; [reflexivity|].
  cbn [flat_map]. rewrite !length_app.
  destruct (outcome b); simpl; lia.
Qed.

Lemma collect_result_buckets (completed : list string) (b : string) :
  In b (map s_bucket (fst (collect s3 batch_size do_delete_bucket completed)))
  <-> In b completed /\ exists r, outcome b = Ret r.
Proof.
  rewrite collect_results, in_map_iff. split.
  - intros (r & Hb & Hin). apply in_flat_map in Hin as (c & Hc & Hr).
    destruct (outcome c) as [r'|e] eqn:Ho; [|contradiction].
    destruct Hr as [-> | []].
    apply future_result_bucket in Ho as Hbucket.
    rewrite Hb in Hbucket. subst c. split; [exact Hc | now exists r].
  - intros (Hin & r & Ho). exists r. split.
    + now apply future_result_bucket in Ho.
    + apply in_flat_map. exists b. split; [exact Hin|].
      rewrite Ho. now left.
Qed.

Lemma collect_error_buckets (completed : list string) (b : string) :
  In b (map fst (snd (collect s3 batch_size do_delete_bucket completed)))
  <-> In b completed /\ exists e, outcome b = Raise e.
Proof.
  rewrite collect_errors, in_map_iff. split.
  - intros ([c e] & Hb & Hin). simpl in Hb. subst c.
    apply in_flat_map in Hin as (c & Hc & Hr).
    destruct (outcome c) as [r'|e'] eqn:Ho; [contradiction|].
    destruct Hr as [[= -> ->] | []]. split; [exact Hc | now exists e].
  - intros (Hin & e & Ho). exists (b, e). split; [reflexivity|].
    apply in_flat_map. exists b. split; [exact Hin|].
    rewrite Ho. now left.
Qed.

Lemma filter_split_length {A : Type} (f : A -> bool) (l : list A) :
  (length (filter f l) + length (filter (fun x => negb (f x)) l)
   = length l)%nat.
Proof.
  induction l as [|x l IH]; [reflexivity|]. simpl.
  destruct (f x); simpl; lia.
Qed.

Lemma collect_buckets_nodup (completed : list string) :
  NoDup completed ->
  NoDup (map s_bucket (fst (collect s3 batch_size do_delete_bucket completed))
         ++ map fst (snd (collect s3 batch_size do_delete_bucket completed))).
Proof.
  intros Hnodup. induction Hnodup as [|b later Hnotin _ IH].
  - constructor.
  - pose proof (collect_result_buckets later b) as Hres.
    pose proof (collect_error_buckets later b) as Herr.
    cbn [collect].
    destruct (collect s3 batch_size do_delete_bucket later) as [res errs].
    cbn [fst snd] in *.
    destruct (future_result s3 b batch_size do_delete_bucket) as [r|e] eqn:Ho.
    + cbn [fst snd map app].
      rewrite (future_result_bucket _ _ _ _ _ Ho).
      constructor; [|exact IH].
      intros Hin. apply in_app_or in Hin as [Hin | Hin].
      * apply Hres in Hin. tauto.
      * apply Herr in Hin. tauto.
    + cbn [fst snd map].
      apply NoDup_Add with (a := b) (l := map s_bucket res ++ map fst errs).
      * apply Add_app.
      * split; [exact IH|].
        intros Hin. apply in_app_or in Hin as [Hin | Hin].
        -- apply Hres in Hin. tauto.
        -- apply Herr in Hin. tauto.
Qed.

End Bookkeeping.

(** X11.  In a run that reaches the workers and in which no bucket
    completes twice (the targets are free of duplicates), every completed
    task is accounted for exactly once: the results and the echoed errors
    together are as many as the completed tasks, a bucket is among the
    results when its worker returned and among the errors when it raised,
    never both; the success count and the failed buckets add up to the
    results, and the total of the [success:] line is the number of
    targets. *)
Theorem run_accounts_for_every_task (s3 : Provider) (t : string)
    (ts completion : list string) (max_workers batch_size : Z)
    (do_delete_bucket : bool) :
  NoDup completion ->
  match run s3 (t :: ts) completion max_workers batch_size false
          do_delete_bucket with
  | Ret rep =>
      (length (results rep) + length (error_lines rep)
       = length completion)%nat
      /\ NoDup (map s_bucket (results rep) ++ map fst (error_lines rep))
      /\ (forall b, In b completion ->
            (In b (map s_bucket (results rep))
             <-> exists r, future_result s3 b batch_size do_delete_bucket = Ret r)
            /\ (In b (map fst (error_lines rep))
                <-> exists e, future_result s3 b batch_size do_delete_bucket
                              = Raise e)
            /\ ~ (In b (map s_bucket (results rep))
                  /\ In b (map fst (error_lines rep))))
      /\ fst (success_line rep) + len (failed_lines rep) = len (results rep)
      /\ snd (success_line rep) = len (t :: ts)
  | Raise _ => True
  end.
Proof.
  intros Hnodup.
  unfold run. destruct (max_workers <=? 0)%Z; [exact I|].
  pose proof (collect_lengths s3 batch_size do_delete_bucket completion) as Hlen.
  pose proof (collect_result_buckets s3 batch_size do_delete_bucket completion)
    as Hres.
  pose proof (collect_error_buckets s3 batch_size do_delete_bucket completion)
    as Herr.
  pose proof (collect_buckets_nodup s3 batch_size do_delete_bucket completion
                Hnodup) as Hnd.
  destruct (collect s3 batch_size do_delete_bucket completion) as [res errs].
  cbn [fst snd results error_lines success_line failed_lines] in *.
  split; [exact Hlen|]. split; [exact Hnd|]. split.
  - intros b Hb. split; [|split].
    + rewrite Hres. tauto.
    + rewrite Herr. tauto.
    + rewrite Hres, Herr. intros [(_ & r & Hr) (_ & e & He)]. congruence.
  - split; [|reflexivity].
    unfold len. rewrite length_map.
    pose proof (filter_split_length final_ok res). lia.
Qed.

Lemma run_accounts_for_every_task_witness :
  match run b3_throttled_s3 ["b1"; "b3"] ["b3"; "b1"] 16 1000 false true with
  | Ret rep =>
      (length (results rep) + length (error_lines rep) = 2)%nat
      /\ NoDup (map s_bucket (results rep) ++ map fst (error_lines rep))
  | Raise _ => True
  end.
Proof.
  assert (Hnodup : NoDup ["b3"; "b1"]).
  { constructor; [|constructor; [|constructor]].
    - intros [H | []]. discriminate H.
    - intros []. }
  pose proof (run_accounts_for_every_task b3_throttled_s3 "b1" ["b3"]
                ["b3"; "b1"] 16 1000 true Hnodup) as H.
  destruct (run b3_throttled_s3 ["b1"; "b3"] ["b3"; "b1"] 16 1000 false true)
    as [rep|e]; [|exact I].
  destruct H as (H1 & H2 & _). split; [exact H1 | exact H2].
Defined.

Lemma Permutation_filter_compat {A : Type} (f : A -> bool) (l l' : list A) :
  Permutation l l' -> Permutation (filter f l) (filter f l').
Proof.
  induction 1 as [|x l l' _ IH|x y l|l l' l'' _ IH1 _ IH2]; simpl.
  - constructor.
  - destruct (f x); [now constructor | exact IH].
  - destruct (f x), (f y); try apply Permutation_refl. constructor.
  - now transitivity (filter f l').
Qed.

Lemma Permutation_nil_iff {A : Type} (l l' : list A) :
  Permutation l l' -> (l = [] <-> l' = []).
Proof.
  intros H. split; intros ->.
  - now apply Permutation_nil.
  - apply Permutation_sym in H. now apply Permutation_nil.
Qed.

(** X12.  The order in which the tasks complete changes neither the exit
    code nor the [success:] line; the results, the echoed errors and the
    failed buckets are the same up to their order. *)
Theorem run_independent_of_completion_order (s3 : Provider)
    (targets c1 c2 : list string) (max_workers batch_size : Z)
    (dry_run do_delete_bucket : bool) :
  Permutation c1 c2 ->
  match run s3 targets c1 max_workers batch_size dry_run do_delete_bucket,
        run s3 targets c2 max_workers batch_size dry_run do_delete_bucket with
  | Ret r1, Ret r2 =>
      exit_code r1 = exit_code r2
      /\ success_line r1 = success_line r2
      /\ Permutation (results r1) (results r2)
      /\ Permutation (error_lines r1) (error_lines r2)
      /\ Permutation (failed_lines r1) (failed_lines r2)
  | Raise e1, Raise e2 => e1 = e2
  | _, _ => False
  end.
Proof.
  intros Hperm. unfold run.
  destruct targets as [|t ts]; [now repeat split|].
  destruct dry_run; [now repeat split|].
  destruct (max_workers <=? 0)%Z; [reflexivity|].
  pose proof (collect_results s3 batch_size do_delete_bucket c1) as Hr1.
  pose proof (collect_results s3 batch_size do_delete_bucket c2) as Hr2.
  pose proof (collect_errors s3 batch_size do_delete_bucket c1) as He1.
  pose proof (collect_errors s3 batch_size do_delete_bucket c2) as He2.
  destruct (collect s3 batch_size do_delete_bucket c1) as [res1 errs1].
  destruct (collect s3 batch_size do_delete_bucket c2) as [res2 errs2].
  cbn [fst snd] in *.
  assert (Hres : Permutation res1 res2)
    by (rewrite Hr1, Hr2; now apply Permutation_flat_map).
  assert (Herrs : Permutation errs1 errs2)
    by (rewrite He1, He2; now apply Permutation_flat_map).
  pose proof (Permutation_filter_compat final_ok _ _ Hres) as Hok.
  pose proof (Permutation_filter_compat (fun r => negb (final_ok r)) _ _ Hres)
    as Hng.
  cbn [exit_code success_line results error_lines failed_lines].
  split; [|split; [|split; [exact Hres | split; [exact Herrs|]]]].
  - pose proof (Permutation_nil_iff _ _ Hng) as Hnil.
    destruct (filter (fun r => negb (final_ok r)) res1) as [|x xs];
      destruct (filter (fun r => negb (final_ok r)) res2) as [|y ys];
      try reflexivity.
    + discriminate (proj1 Hnil eq_refl).
    + discriminate (proj2 Hnil eq_refl).
  - unfold len. now rewrite (Permutation_length Hok).
  - now apply Permutation_map.
Qed.

Lemma run_independent_of_completion_order_witness :
  match run b3_throttled_s3 ["b1"; "b3"] ["b1"; "b3"] 16 1000 false true,
        run b3_throttled_s3 ["b1"; "b3"] ["b3"; "b1"] 16 1000 false true with
  | Ret r1, Ret r2 =>
      exit_code r1 = exit_code r2
      /\ success_line r1 = success_line r2
      /\ Permutation (results r1) (results r2)
      /\ Permutation (error_lines r1) (error_lines r2)
      /\ Permutation (failed_lines r1) (failed_lines r2)
  | Raise e1, Raise e2 => e1 = e2
  | _, _ => False
  end.
Proof.
  apply (run_independent_of_completion_order b3_throttled_s3 ["b1"; "b3"]
           ["b1"; "b3"] ["b3"; "b1"] 16 1000 false true).
  apply perm_swap.
Defined.

Lemma run_exit_one (s3 : Provider) (targets completion : list string)
    (max_workers batch_size : Z) (dry_run do_delete_bucket : bool) :
  match run s3 targets completion max_workers batch_size dry_run
          do_delete_bucket with
  | Ret rep => exit_code rep = 1 <-> targets = []
  | Raise e => e = ValueError /\ dry_run = false /\ max_workers <= 0
  end.
Proof.
  unfold run. destruct targets as [|t ts]; [now split|].
  destruct dry_run; [split; discriminate|].
  destruct (Z.leb_spec max_workers 0) as [Hw|Hw]; [now repeat split|].
  destruct (collect s3 batch_size do_delete_bucket completion) as [res errs].
  cbn [exit_code]. split; [|discriminate].
  destruct (filter _ res); discriminate.
Qed.

(** X13.  The exit code of a run is 1 exactly when there is no target, 2
    exactly when some recorded result has a final status other than deleted
    and gone, and 0 otherwise; a dry run records nothing; the only
    exception a run raises is the [ValueError] of a worker pool of
    non-positive size, and only with targets and without [--dry-run]. *)
Theorem run_exit_codes (s3 : Provider) (targets completion : list string)
    (max_workers batch_size : Z) (dry_run do_delete_bucket : bool) :
  match run s3 targets completion max_workers batch_size dry_run
          do_delete_bucket with
  | Ret rep =>
      (exit_code rep = 1 <-> targets = [])
      /\ (exit_code rep = 2 <->
          exists r, In r (results rep) /\ final_ok r = false)
      /\ (exit_code rep = 0 \/ exit_code rep = 1 \/ exit_code rep = 2)
      /\ (dry_run = true -> results rep = [] /\ error_lines rep = [])
      /\ (targets <> [] -> dry_run = false -> 0 < max_workers)
  | Raise e =>
      e = ValueError /\ targets <> [] /\ dry_run = false /\ max_workers <= 0
  end.
Proof.
  unfold run. destruct targets as [|t ts].
  - cbn. repeat split; try tauto; try discriminate.
    intros (r & [] & _).
  - destruct dry_run.
    + cbn. repeat split; try tauto; try discriminate.
      intros (r & [] & _).
    + destruct (Z.leb_spec max_workers 0) as [Hw|Hw].
      * repeat split; try discriminate. exact Hw.
      * destruct (collect s3 batch_size do_delete_bucket completion)
          as [res errs].
        cbn [exit_code results error_lines].
        split; [|split; [|split; [|split]]].
        -- split; [|discriminate].
           destruct (filter _ res); discriminate.
        -- split.
           ++ destruct (filter (fun r => negb (final_ok r)) res) as [|x xs] eqn:Hf;
                [discriminate|]. intros _.
              assert (Hin : In x (filter (fun r => negb (final_ok r)) res))
                by (rewrite Hf; now left).
              apply filter_In in Hin as [Hin Hx].
              exists x. split; [exact Hin|]. now apply negb_true_iff.
           ++ intros (r & Hin & Hr).
              assert (Hin' : In r (filter (fun r => negb (final_ok r)) res))
                by (apply filter_In; split; [exact Hin | now rewrite Hr]).
              destruct (filter (fun r => negb (final_ok r)) res);
                [contradiction | reflexivity].
        -- destruct (filter _ res); tauto.
        -- discriminate.
        -- intros _ _. exact Hw.
Qed.

(** ** More on the Name Filter *)

Section FilterLaws.
Context {E : Regex}.

Lemma filter_buckets_valid (names out : list string) (p r : option string) :
  filter_buckets names p r = Ret out ->
  forall pat, truthy r = Some pat -> re_compile pat <> None.
Proof.
  unfold filter_buckets. intros Hrun pat Hpat. rewrite Hpat in Hrun.
  now destruct (re_compile pat).
Qed.

Lemma filter_buckets_raises (names : list string) (p r : option string)
    (e : exn) :
  filter_buckets names p r = Raise e ->
  e = ReError /\ exists pat, truthy r = Some pat /\ re_compile pat = None.
Proof.
  unfold filter_buckets. destruct (truthy r) as [pat|]; [|discriminate].
  destruct (re_compile pat) eqn:Hc; [discriminate|].
  intros [= <-]. split; [reflexivity|]. now exists pat.
Qed.

End FilterLaws.

(** X14.  When [filter_buckets] returns for one list it returns for every
    list: filtering its own result changes nothing, and filtering a
    concatenation is concatenating the filtered parts.  When it raises, it
    raises [re.error] whatever the names are, the empty list included. *)
Theorem filter_buckets_laws {E : Regex} (names out : list string)
    (p r : option string) :
  filter_buckets names p r = Ret out ->
  filter_buckets out p r = Ret out
  /\ (forall more, exists out',
        filter_buckets more p r = Ret out'
        /\ filter_buckets (names ++ more) p r = Ret (out ++ out'))
  /\ filter_buckets [] p r = Ret [].
Proof.
  intros Hrun. pose proof (filter_buckets_valid _ _ _ _ Hrun) as Hvalid.
  rewrite filter_buckets_eq in Hrun by exact Hvalid.
  injection Hrun as <-. split; [|split].
  - rewrite filter_buckets_eq by exact Hvalid. f_equal.
    rewrite (filter_all_in (starts_with p)).
    + apply filter_all_in. intros n Hn. now apply filter_In in Hn.
    + intros n Hn. apply filter_In in Hn as [Hn _].
      now apply filter_In in Hn.
  - intros more. eexists. split; [now apply filter_buckets_eq|].
    rewrite filter_buckets_eq by exact Hvalid.
    now rewrite !filter_app.
  - now rewrite filter_buckets_eq by exact Hvalid.
Qed.

Lemma filter_buckets_laws_witness :
  filter_buckets (E := MiniRe.engine) ["a1"] (Some "a") (Some "2$")
  = Ret ["a1"]
  /\ filter_buckets (E := MiniRe.engine) [] (Some "a") (Some "2$") = Ret [].
Proof.
  destruct (filter_buckets_laws (E := MiniRe.engine) ["a1"; "a2"; "b1"] ["a1"]
              (Some "a") (Some "2$") eq_refl) as (H1 & _ & H3).
  split; [exact H1 | exact H3].
Defined.

Lemma run_raises_iff (s3 : Provider) (targets completion : list string)
    (max_workers batch_size : Z) (dry_run do_delete_bucket : bool) :
  (exists e, run s3 targets completion max_workers batch_size dry_run
               do_delete_bucket = Raise e)
  <-> targets <> [] /\ dry_run = false /\ max_workers <= 0.
Proof.
  unfold run. destruct targets as [|t ts].
  - split; [intros (e & H); discriminate H | intros (H & _); congruence].
  - destruct dry_run.
    + split; [intros (e & H); discriminate H | intros (_ & H & _); discriminate H].
    + destruct (Z.leb_spec max_workers 0) as [Hw|Hw].
      * split; [intros _; repeat split; [discriminate | exact Hw]
               | intros _; now eexists].
      * destruct (collect s3 batch_size do_delete_bucket completion).
        split; [intros (e & H); discriminate H | intros (_ & _ & H); lia].
Qed.

(** X15.  For an exclude regex that [re.compile] compiles or rejects with
    [re.error]: when the regex is given, not empty and rejected, [main]
    raises [re.error], whatever the candidates and the other options are;
    when it is not, [main] exits with 1 exactly when no candidate passes the
    filters, and it raises exactly when some candidate passes, [--dry-run]
    is off and the size of the worker pool is not positive, the exception
    then being the [ValueError] of the pool. *)
Theorem main_exit_code_one {E : Regex} (s3 : Provider)
    (candidates : list string) (include_prefix exclude_regex : option string)
    (completion : list string -> list string) (max_workers batch_size : Z)
    (dry_run do_delete_bucket : bool) :
  (forall pat,
      truthy exclude_regex = Some pat -> re_compile pat = None ->
      main s3 candidates include_prefix exclude_regex completion
        max_workers batch_size dry_run do_delete_bucket = Raise ReError)
  /\ ((forall pat, truthy exclude_regex = Some pat -> re_compile pat <> None) ->
      match main s3 candidates include_prefix exclude_regex completion
              max_workers batch_size dry_run do_delete_bucket with
      | Ret rep =>
          exit_code rep = 1 <->
          (forall c, In c candidates ->
             starts_with include_prefix c = false
             \/ excluded exclude_regex c = true)
      | Raise e => e = ValueError
      end
      /\ ((exists e,
             main s3 candidates include_prefix exclude_regex completion
               max_workers batch_size dry_run do_delete_bucket = Raise e)
          <-> (exists c, In c candidates
                         /\ starts_with include_prefix c = true
                         /\ excluded exclude_regex c = false)
              /\ dry_run = false /\ max_workers <= 0)).
Proof.
  split.
  - intros pat Hpat Hbad. unfold main, filter_buckets.
    now rewrite Hpat, Hbad.
  - intros Hvalid. unfold main.
    rewrite filter_buckets_eq by exact Hvalid.
    set (targets := filter (fun n => negb (excluded exclude_regex n))
                      (filter (starts_with include_prefix) candidates)).
    assert (Hin : forall c, In c targets <->
              In c candidates /\ starts_with include_prefix c = true
              /\ excluded exclude_regex c = false).
    { intros c. unfold targets. rewrite !filter_In, negb_true_iff. tauto. }
    assert (Hnone : targets = [] <->
      forall c, In c candidates ->
        starts_with include_prefix c = false
        \/ excluded exclude_regex c = true).
    { split.
      - intros Hnil c Hc.
        destruct (starts_with include_prefix c) eqn:Hp; [|now left].
        destruct (excluded exclude_regex c) eqn:Hx; [now right|].
        assert (Hc' : In c targets) by (apply Hin; tauto).
        rewrite Hnil in Hc'. contradiction.
      - intros Hall. destruct targets as [|c cs] eqn:Ht; [reflexivity|].
        assert (Hc : In c (c :: cs)) by now left.
        apply Hin in Hc as (Hc & Hp & Hx).
        destruct (Hall c Hc); congruence. }
    assert (Hsome : targets <> [] <->
      exists c, In c candidates /\ starts_with include_prefix c = true
                /\ excluded exclude_regex c = false).
    { split.
      - intros Hne. destruct targets as [|c cs] eqn:Ht; [contradiction|].
        exists c. apply Hin. now left.
      - intros (c & Hc) Hnil. apply Hin in Hc. rewrite Hnil in Hc.
        contradiction. }
    split.
    + pose proof (run_exit_one s3 targets (completion targets) max_workers
                    batch_size dry_run do_delete_bucket) as Hrun.
      destruct (run s3 targets (completion targets) max_workers batch_size
                  dry_run do_delete_bucket) as [rep|e].
      * now rewrite Hrun.
      * now destruct Hrun.
    + rewrite run_raises_iff, Hsome. reflexivity.
Qed.

Lemma main_exit_code_one_witness :
  main (E := MiniRe.engine) healthy_s3 ["a1"; "a2"] (Some "a") (Some "(")
    (fun l => l) 16 1000 false true = Raise ReError
  /\ match main (E := MiniRe.engine) healthy_s3 ["a1"; "a2"] (Some "b")
             (Some "2$") (fun l => l) 16 1000 false true with
     | Ret rep =>
         exit_code rep = 1 <->
         (forall c, In c ["a1"; "a2"] ->
            starts_with (Some "b") c = false
            \/ excluded (E := MiniRe.engine) (Some "2$") c = true)
     | Raise e => e = ValueError
     end.
Proof.
  split.
  - apply (proj1 (main_exit_code_one (E := MiniRe.engine) healthy_s3
                    ["a1"; "a2"] (Some "a") (Some "(") (fun l => l) 16 1000
                    false true) "("); reflexivity.
  - apply (proj2 (main_exit_code_one (E := MiniRe.engine) healthy_s3
                    ["a1"; "a2"] (Some "b") (Some "2$") (fun l => l) 16 1000
                    false true)).
    intros pat Hpat. injection Hpat as <-. discriminate.
Defined.

(** ** The buckets file (main.py, lines 129-131) *)

(** [str.isspace] for one character.  A character of a [string] stands for
    the code point of its number; code points from 256 on are not
    represented. *)
Definition is_space (c : ascii) : bool :=
  let n := nat_of_ascii c in
  ((9 <=? n) && (n <=? 13) || (28 <=? n) && (n <=? 32)
   || (n =? 133) || (n =? 160))%nat.

Fixpoint lstrip (s : string) : string :=
  match s with
  | EmptyString => EmptyString
  | String c rest => if is_space c then lstrip rest else s
  end.

Fixpoint rstrip (s : string) : string :=
  match s with
  | EmptyString => EmptyString
  | String c rest =>
      match rstrip rest with
      | EmptyString => if is_space c then EmptyString else String c EmptyString
      | kept => String c kept
      end
  end.

(** [l.strip()] *)
Definition strip (s : string) : string := rstrip (lstrip s).


(** [[l.strip() for l in f if l.strip()]], over the lines the file yields. *)
Definition read_candidates (lines : list string) : list string :=
  flat_map (fun l => if strip l =? "" then [] else [strip l]) lines.











Example read_candidates_example :
  read_candidates
    [("  logs-2019 " ++ String (ascii_of_nat 10) "")%string;
     String (ascii_of_nat 10) "";
     String (ascii_of_nat 9) ("tmp" ++ String (ascii_of_nat 13)
                                (String (ascii_of_nat 10) ""))%string]
  = ["logs-2019"; "tmp"].
Proof. reflexivity. Qed.

(** ** Keys a drain asks to delete *)

(** The keys of the pages of a listing. *)
Definition listed_keys (pages : list page_fetch) : list string :=
  flat_map (fun p =>
    match p with
    | Page keys => keys
    | PageError _ => []
    end) pages.

Lemma batched_groups_incl {A : Type} (keys : list A) (n : Z) (g : list A) :
  In g (batched keys n) -> incl g keys.
Proof.
  intros Hg x Hx.
  assert (Hin : In x (concat (batched keys n)))
    by (apply in_concat; now exists g).
  unfold batched in Hin. now rewrite batched_from_concat in Hin.
Qed.

(** X17.  Against a service that reports as failed only keys it was sent,
    a drain asks to delete nothing but keys its listing showed, retries
    included. *)
Theorem drain_deletes_only_listed_keys (s3 : Provider) (bucket : string)
    (batch_size max_delete_retries : Z) (w : world) :
  (forall k objects resp,
      delete_objects s3 k bucket objects true = Ret resp ->
      incl (Errors resp) objects) ->
  extends
    (drain_event bucket
       (fun objects =>
          incl objects (listed_keys (list_objects_v2 s3 (n_paginate w) bucket)))
       4) w
    (snd (empty_bucket s3 bucket batch_size max_delete_retries w)).
Proof.
  intros Hservice.
  destruct (empty_bucket s3 bucket batch_size max_delete_retries w)
    as [r w'] eqn:Hrun.
  apply (empty_bucket_inv s3 bucket
           (fun objects =>
              incl objects
                (listed_keys (list_objects_v2 s3 (n_paginate w) bucket))))
    in Hrun.
  - simpl. tauto.
  - intros k objects resp Hok Hcall _.
    eapply incl_tran; [|exact Hok]. eapply Hservice. exact Hcall.
  - intros keys Hpage. apply Forall_forall. intros g Hg.
    eapply incl_tran; [eapply batched_groups_incl; exact Hg|].
    intros x Hx. unfold listed_keys. apply in_flat_map.
    exists (Page keys). now split.
Qed.

Lemma drain_deletes_only_listed_keys_witness :
  extends
    (drain_event "b" (fun objects => incl objects ["k1"; "k2"; "k3"]) 4)
    init_world
    (snd (empty_bucket first_key_fails_s3 "b" 2 5 init_world)).
Proof.
  apply (drain_deletes_only_listed_keys first_key_fails_s3 "b" 2 5 init_world).
  intros [|k] objects resp; simpl; intros [= <-]; simpl.
  - destruct objects as [|o os]; [apply incl_nil_l|].
    intros x [-> | []]. now left.
  - apply incl_nil_l.
Defined.

(** ** A bucket that is already empty *)

(** Two pages without any key. *)
Definition empty_pages_s3 : Provider :=
  {| list_objects_v2 := fun _ _ => [Page []; Page []];
     delete_objects := fun _ _ _ _ => Raise (ClientError (Some "AccessDenied"));
     s3_delete_bucket := fun _ _ => Ret tt |}.

(** X18.  When no page of the listing holds a key, whatever the service
    would answer to a delete call and whatever [max_delete_retries] is, the
    drain returns [deleted = 0] with status emptied and makes no
    [delete_objects] call. *)
Theorem draining_empty_bucket_is_a_no_op (s3 : Provider) (bucket : string)
    (batch_size max_delete_retries : Z) (w : world) :
  Forall (fun p => p = Page []) (list_objects_v2 s3 (n_paginate w) bucket) ->
  exists w',
    empty_bucket s3 bucket batch_size max_delete_retries w
    = (Ret {| s_bucket := bucket; s_deleted := 0; s_status := emptied;
              s_final := None |}, w')
    /\ n_delete_objects w' = n_delete_objects w
    /\ delete_calls (trace w') = delete_calls (trace w)
    /\ trace w'
       = trace w
         ++ repeat (ListObjects bucket)
              (length (list_objects_v2 s3 (n_paginate w) bucket)).
Proof.
  intros Hempty. unfold empty_bucket, bind at 1, call_paginate.
  unfold bind at 1. rewrite drain_empty_pages by exact Hempty.
  eexists. split; [reflexivity|]. split; [reflexivity|].
  cbn [trace]. split; [|reflexivity].
  unfold delete_calls. rewrite flat_map_app.
  induction (length _) as [|k IH]; simpl; [now rewrite app_nil_r | exact IH].
Qed.

Lemma draining_empty_bucket_is_a_no_op_witness :
  exists w',
    empty_bucket empty_pages_s3 "b" 1000 0 init_world
    = (Ret {| s_bucket := "b"; s_deleted := 0; s_status := emptied;
              s_final := None |}, w')
    /\ n_delete_objects w' = 0%nat
    /\ delete_calls (trace w') = []
    /\ trace w' = [ListObjects "b"; ListObjects "b"].
Proof.
  apply (draining_empty_bucket_is_a_no_op empty_pages_s3 "b" 1000 0 init_world).
  repeat constructor.
Defined.
